(** * circles.c: animation between arrangements of four circles

    A shallow embedding of [src/circles.c].  The C globals become the fields
    of a [state] record that every callback receives and returns; a callback
    that can run into undefined behaviour (a remainder or a conversion that C
    leaves undefined, an array access out of bounds) returns [None].

    Numbers are modelled as the code has them:
    - [unsigned int] is a [Z] in [0, 2^32) with the wrap-around written out;
    - [animDuration] and the rescaling of the frame index only go through
      [+], [-], [*], [/], [>] and the conversions between [double] and
      [unsigned int], which IEEE 754 and C fix completely, so they are
      computed bit for bit on binary64 values ([PrimFloat.float]);
    - [nonLin], the easing curve and the circle coordinates go through the
      libm function [pow] (whose rounding C does not specify) or are specified
      "in exact arithmetic": they are read as real numbers, and so is what the
      drawing routines compute from them (with [cos] and [sin]) and pass on to
      OpenGL. *)

From Stdlib Require Import ZArith List Reals Lra Lia Floats Bool Permutation.
From stdpp Require Import base list.
Import ListNotations.

Set Warnings "-inexact-float".
Local Open Scope Z_scope.

(** ** Machine integers and doubles *)

Definition UINT_MAX : Z := 2 ^ 32 - 1.

(** Wrap-around of [unsigned int] arithmetic. *)
Definition uint (z : Z) : Z := z mod 2 ^ 32.

(** Conversion [unsigned int -> double]: exact, every 32-bit value is a
    binary64 number. *)
Definition double_of_uint (z : Z) : float := PrimFloat.of_uint63 (Uint63.of_Z z).

(** Conversion [double -> unsigned int]: the fractional part is discarded
    (truncation toward zero); C leaves the conversion undefined when the
    integral part is not representable, and for infinities and NaN. *)
Definition uint_of_double (x : float) : option Z :=
  match Prim2SF x with
  | S754_zero _ => Some 0
  | S754_finite s m e =>
      let q := Z.shiftl (Z.pos m) e in
      let v := if s then - q else q in
      if (0 <=? v) && (v <=? UINT_MAX) then Some v else None
  | S754_infinity _ | S754_nan => None
  end.

(** Powers of 2 with an integer exponent, and the position of a real [v]
    relative to a shift record of SpecFloat at exponent [e]: the mantissa
    [shr_m] counts units of [2^e], the round bit [shr_r] the next half unit,
    the sticky bit [shr_s] says whether anything is left beyond it. *)
Definition bpow (e : Z) : R := powerRZ 2 e.

Definition brackets (v : R) (mrs : shr_record) (e : Z) : Prop :=
  0 ≤ shr_m mrs ∧
  match shr_r mrs, shr_s mrs with
  | false, false => v = (IZR (shr_m mrs) * bpow e)%R
  | false, true =>
      (IZR (shr_m mrs) * bpow e < v < (IZR (shr_m mrs) + 1 / 2) * bpow e)%R
  | true, false => v = ((IZR (shr_m mrs) + 1 / 2) * bpow e)%R
  | true, true =>
      ((IZR (shr_m mrs) + 1 / 2) * bpow e < v < (IZR (shr_m mrs) + 1) * bpow e)%R
  end.

(** The libm function [pow] on the reals, for a base [x >= 0]:
    [pow(x, y) = exp (y * ln x)] for [x > 0], [pow(0, 0) = 1] and
    [pow(0, y) = 0] for [y > 0].  (For [x = 0] and [y < 0], and for [x < 0],
    C returns an infinity, a NaN or a signed value; the easing code never
    calls [pow] there and nothing below depends on the value chosen.) *)
Definition pow (x y : R) : R :=
  if Rlt_dec 0 x then Rpower x y
  else if Req_dec_T y 0 then 1%R else 0%R.

(** ** User-set parameters and constants *)

Definition FRAMERATE : Z := 60.
Definition NON_LIN_CTL_HI : Z := 21.
Definition NON_LIN_CTL_LO : Z := -1.
Definition DURATION_CTL_LO : float := 0.2%float.
Definition DURATION_CTL_DELTA : float := 0.05%float.

(** ** The globals *)

Record state : Type := mkState {
  animDuration : float;     (* double animDuration = 2.7 *)
  nonLinCtl : Z;            (* int nonLinCtl = 12 *)
  animFrames : Z;           (* static unsigned int animFrames *)
  nonLin : R;               (* static double nonLin *)
  currGroupIdx : Z;         (* static unsigned int currGroupIdx = 0 *)
  currAnimFrame : Z         (* static unsigned int currAnimFrame = 0 *)
}.

(** ** Easing *)

Definition animEase (t nonLin : R) : R :=
  if Rlt_dec t (1 / 2) then (1 / 2 * pow (2 * t) nonLin)%R
  else (1 - 1 / 2 * pow (2 * (1 - t)) nonLin)%R.

Definition nonLinCtlCurve (nonLinCtl : Z) : R :=
  if Z.eq_dec nonLinCtl (-1) then 1%R
  else (pow 2 (IZR nonLinCtl / 2 - 2) + 1)%R.

(** ** Key events *)

Inductive special_key : Type :=
  | GLUT_KEY_RIGHT
  | GLUT_KEY_LEFT
  | GLUT_KEY_UP
  | GLUT_KEY_DOWN
  | GLUT_KEY_other.

(** The expression [currAnimFrame / (double) oldAnimFrames * animFrames],
    converted back to [unsigned int] by the assignment. *)
Definition rescale (currAnimFrame oldAnimFrames animFrames : Z) : option Z :=
  uint_of_double
    (double_of_uint currAnimFrame / double_of_uint oldAnimFrames
     * double_of_uint animFrames)%float.

(** A bounded universal quantifier, to evaluate a check over a range. *)
Fixpoint forall_below (n : nat) (p : Z → bool) : bool :=
  match n with
  | O => true
  | S k => p (Z.of_nat k) && forall_below k p
  end.

Definition animSpecialKeys (key : special_key) (st : state) : option state :=
  match key with
  | GLUT_KEY_RIGHT =>
      if (DURATION_CTL_LO <? animDuration st)%float then
        let animDuration' := (animDuration st - DURATION_CTL_DELTA)%float in
        let oldAnimFrames := animFrames st in
        animFrames' ← uint_of_double (animDuration' * double_of_uint FRAMERATE)%float;
        currAnimFrame' ← rescale (currAnimFrame st) oldAnimFrames animFrames';
        Some (mkState animDuration' (nonLinCtl st) animFrames' (nonLin st)
                (currGroupIdx st) currAnimFrame')
      else Some st
  | GLUT_KEY_LEFT =>
      let animDuration' := (animDuration st + DURATION_CTL_DELTA)%float in
      let oldAnimFrames := animFrames st in
      animFrames' ← uint_of_double (animDuration' * double_of_uint FRAMERATE)%float;
      currAnimFrame' ← rescale (currAnimFrame st) oldAnimFrames animFrames';
      Some (mkState animDuration' (nonLinCtl st) animFrames' (nonLin st)
              (currGroupIdx st) currAnimFrame')
  | GLUT_KEY_UP =>
      if nonLinCtl st <? NON_LIN_CTL_HI then
        let nonLinCtl' := nonLinCtl st + 1 in
        Some (mkState (animDuration st) nonLinCtl' (animFrames st)
                (nonLinCtlCurve nonLinCtl') (currGroupIdx st) (currAnimFrame st))
      else Some st
  | GLUT_KEY_DOWN =>
      if NON_LIN_CTL_LO <? nonLinCtl st then
        let nonLinCtl' := nonLinCtl st - 1 in
        Some (mkState (animDuration st) nonLinCtl' (animFrames st)
                (nonLinCtlCurve nonLinCtl') (currGroupIdx st) (currAnimFrame st))
      else Some st
  | GLUT_KEY_other => Some st
  end.

(** A sequence of key events, delivered one after the other. *)
Fixpoint keyEvents (keys : list special_key) (st : state) : option state :=
  match keys with
  | [] => Some st
  | key :: keys' => st' ← animSpecialKeys key st; keyEvents keys' st'
  end.

(** The globals as [main] leaves them before entering the main loop. *)
Definition main_state : option state :=
  let animDuration0 := 2.7%float in
  let nonLinCtl0 := 12 in
  animFrames0 ← uint_of_double (animDuration0 * double_of_uint FRAMERATE)%float;
  Some (mkState animDuration0 nonLinCtl0 animFrames0 (nonLinCtlCurve nonLinCtl0) 0 0).

(** ** Arrays *)

(** [circleGroups] has type [double[NUM_GROUPS][4][3]]: a list of groups, a
    group is a list of circles, a circle is the list [x; y; radius]. *)
Definition cg_get (cg : list (list (list R))) (i j k : nat) : R :=
  default 0%R (g ← cg !! i; c ← g !! j; c !! k).

Definition cg_set (cg : list (list (list R))) (i j k : nat) (v : R)
  : list (list (list R)) :=
  alter (alter (<[k := v]>) j) i cg.

(** The shape that the C array type gives the table; inside it [cg_get] and
    [cg_set] are the C accesses [cg[i][j][k]] and [cg[i][j][k] = v]. *)
Definition cg_shape (n : nat) (cg : list (list (list R))) : Prop :=
  length cg = n ∧
  Forall (λ g, length g = 4%nat ∧ Forall (λ c : list R, length c = 3%nat) g) cg.

(** The sum of coordinate [k] over the four circles of group [i]. *)
Definition axis_sum (cg : list (list (list R))) (i k : nat) : R :=
  (cg_get cg i 0 k + cg_get cg i 1 k + cg_get cg i 2 k + cg_get cg i 3 k)%R.

(** Access to an [unsigned int] array at an index computed at run time (an
    [int]): outside the bounds the behaviour is undefined. *)
Definition arr_get (a : list Z) (idx : Z) : option Z :=
  if decide (0 ≤ idx) then a !! Z.to_nat idx else None.

Definition arr_set (a : list Z) (idx : Z) (v : Z) : option (list Z) :=
  if decide (0 ≤ idx < Z.of_nat (length a)) then Some (<[Z.to_nat idx := v]> a)
  else None.

(** [for (i = 0; i < n; i++) body], as a fold over the values of [i]. *)
Definition for_loop {S : Type} (n : nat) (body : nat → S → S) (s : S) : S :=
  fold_left (λ acc i, body i acc) (seq 0 n) s.

(** The same loop when the body can run into undefined behaviour. *)
Definition for_loop_opt {S : Type} (n : nat) (body : nat → S → option S) (s : S)
  : option S :=
  fold_left (λ acc i, acc ≫= body i) (seq 0 n) (Some s).

Section Groups.

(** [NUM_GROUPS] comes from [circles.h]; [rnd_int32] from [random.h], with
    the generator's hidden state passed explicitly. *)
Variable NUM_GROUPS : nat.
Variable rng_state : Type.
Variable rnd_int32 : Z → Z → rng_state → Z * rng_state.

(** ** Initialization *)

(** One pass of the body of the [k] loop: average coordinate [k] over the
    four circles of group [i], then subtract it from each. *)
Definition center_axis (i k : nat) (circleGroups : list (list (list R)))
  : list (list (list R)) :=
  let avCoord := for_loop 4 (λ j avCoord, (avCoord + cg_get circleGroups i j k)%R) 0%R in
  for_loop 4
    (λ j cg, cg_set cg i j k (cg_get cg i j k - avCoord / 4)%R)
    circleGroups.

(** One pass of the body of the [i] loop: both axes of group [i]. *)
Definition center_group (i : nat) (circleGroups : list (list (list R)))
  : list (list (list R)) :=
  for_loop 2 (λ k cg, center_axis i k cg) circleGroups.

Definition circInit_center (circleGroups : list (list (list R)))
  : list (list (list R)) :=
  for_loop NUM_GROUPS center_group circleGroups.

(** One pass of the body of the Fisher-Yates loop. *)
Definition shuffle_step (i : nat) (acc : list Z * rng_state)
  : option (list Z * rng_state) :=
  let '(groupOrder, s) := acc in
  let '(idx, s') := rnd_int32 (Z.of_nat i) (Z.of_nat NUM_GROUPS) s in
  tmp ← arr_get groupOrder idx;
  gi ← groupOrder !! i;
  groupOrder1 ← arr_set groupOrder idx gi;
  Some (<[i := tmp]> groupOrder1, s').

(** The two loops over [groupOrder].  The bound [NUM_GROUPS - 1] of the second
    is the C value for [NUM_GROUPS >= 1], which an array dimension is. *)
Definition circInit_order (groupOrder : list Z) (s : rng_state)
  : option (list Z * rng_state) :=
  let groupOrder0 :=
    for_loop NUM_GROUPS (λ i go, <[i := Z.of_nat i]> go) groupOrder in
  for_loop_opt (NUM_GROUPS - 1) shuffle_step (groupOrder0, s).

Definition circInit (circleGroups : list (list (list R))) (groupOrder : list Z)
    (s : rng_state) : option (list (list (list R)) * list Z * rng_state) :=
  let circleGroups' := circInit_center circleGroups in
  '(groupOrder', s') ← circInit_order groupOrder s;
  Some (circleGroups', groupOrder', s').

(** ** Display *)

(** The animation trackers after one call of [animDisplay]: the globals that
    the call writes (the two assignments at its end, with [nextGroupIdx] from
    its beginning).  Both remainders are undefined in C when the divisor is 0.
    What the call reads from the arrays and hands to the drawing routines is
    in [animDisplay_frame] below, which ends with this update. *)
Definition animDisplay (st : state) : option state :=
  if Z.of_nat NUM_GROUPS =? 0 then None
  else
    let nextGroupIdx := uint (currGroupIdx st + 1) mod Z.of_nat NUM_GROUPS in
    if animFrames st =? 0 then None
    else
      let currAnimFrame' := uint (currAnimFrame st + 1) mod animFrames st in
      Some (mkState (animDuration st) (nonLinCtl st) (animFrames st) (nonLin st)
              (if currAnimFrame' =? 0 then nextGroupIdx else currGroupIdx st)
              currAnimFrame').

(** [n] timer ticks, each followed by one redisplay, and no key event. *)
Fixpoint ticks (n : nat) (st : state) : option state :=
  match n with
  | O => Some st
  | S n' => st' ← animDisplay st; ticks n' st'
  end.

(** What [animDisplay] hands to [drawCircle]: for each of the four circles the
    centre and the radius, interpolated between the current and the next
    group.  [animDisplay_circles] computes them from the entries of the table
    as [cg_get] names them, for rows inside the table; [animDisplay_frame]
    below checks every read against the bounds of the arrays. *)
Definition interpolateStep (st : state) : R :=
  animEase (IZR (currAnimFrame st) / IZR (animFrames st)) (nonLin st).

Definition animDisplay_circles (circleGroups : list (list (list R)))
    (groupOrder : list Z) (st : state) : option (list (R * R * R)) :=
  let interpolateStep := interpolateStep st in
  let nextGroupIdx := uint (currGroupIdx st + 1) mod Z.of_nat NUM_GROUPS in
  currGroup ← arr_get groupOrder (currGroupIdx st);
  nextGroup ← arr_get groupOrder nextGroupIdx;
  let interp (j k : nat) : R :=
    (cg_get circleGroups (Z.to_nat currGroup) j k * (1 - interpolateStep)
     + cg_get circleGroups (Z.to_nat nextGroup) j k * interpolateStep)%R in
  Some (map (λ j, (interp j 0%nat, interp j 1%nat, interp j 2%nat)) (seq 0 4)).

End Groups.

Arguments shuffle_step NUM_GROUPS {rng_state} rnd_int32 i acc.
Arguments circInit_order NUM_GROUPS {rng_state} rnd_int32 groupOrder s.
Arguments circInit NUM_GROUPS {rng_state} rnd_int32 circleGroups groupOrder s.

(** ** Drawing

    What the drawing routines hand to [glVertex2f] and [gluOrtho2D], as real
    numbers. *)

Definition CIRCLE_PTS : nat := 200.
Definition SCALE : R := 200.

(** One pass of the loop of [drawCircle]: emit the vertex, then apply the
    rotation matrix ([t] keeps the old [x]). *)
Definition drawCircle_step (c s cx cy : R) (acc : list (R * R) * (R * R))
  : list (R * R) * (R * R) :=
  let '(vertices, (x, y)) := acc in
  let t := x in
  (vertices ++ [((x + cx)%R, (y + cy)%R)], ((c * x - s * y)%R, (s * t + c * y)%R)).

Definition drawCircle (cx cy r : R) : list (R * R) :=
  let theta := (2 * PI / INR CIRCLE_PTS)%R in
  let c := cos theta in
  let s := sin theta in
  (for_loop CIRCLE_PTS (λ _ acc, drawCircle_step c s cx cy acc) ([], (r, 0%R))).1.

(** [drawInterpCurve] reads the global [nonLin]; with [samples = 0] the loop
    body, and the division by [samples], are never reached. *)
Definition drawInterpCurve (st : state) (x y width height : R) (samples : nat)
  : list (R * R) :=
  for_loop samples
    (λ i vertices,
       let t := (INR i / INR samples)%R in
       vertices ++ [((x + width * t)%R, (y + height * animEase t (nonLin st))%R)])
    [].

(** [animReshape]: the arguments of [glViewport] and of [gluOrtho2D]
    (left, right, bottom, top). *)
Definition animReshape (width height : Z) : (Z * Z * Z * Z) * (R * R * R * R) :=
  let height := if height =? 0 then 1 else height in
  let aspect := (IZR width / IZR height)%R in
  ((0, 0, width, height),
   if height <=? width
   then ((- aspect * SCALE)%R, (aspect * SCALE)%R, (- SCALE)%R, SCALE)
   else ((- SCALE)%R, SCALE, (- SCALE / aspect)%R, (SCALE / aspect)%R)).

(** ** A whole redisplay

    [animDisplay] with everything it reads and draws: the interpolation
    weight, the two rows of [circleGroups] that [groupOrder] selects, the four
    circles handed to [drawCircle], the easing curve, and the trackers
    afterwards.  The result is [None] where the C program has no defined
    behaviour, or where the reading of its doubles as real numbers does not
    apply: a frame count or a group count of 0 (a division, a remainder), an
    index outside [groupOrder] or outside [circleGroups], a time outside
    [[0, 1]] or an exponent that is not positive (there [pow] is called on a
    negative base, or on 0 with an exponent for which C returns an
    infinity). *)

(** The read [circleGroups[i][j][k]]: no value outside the table. *)
Definition cg_read (cg : list (list (list R))) (i j k : nat) : option R :=
  g ← cg !! i; c ← g !! j; c !! k.

(** The reads [group[j][0]], [group[j][1]] and [group[j][2]] for
    [group = circleGroups[g]], where [g] is an entry of [groupOrder]. *)
Definition circle_read (cg : list (list (list R))) (g : Z) (j : nat)
  : option (R * R * R) :=
  if decide (0 ≤ g) then
    x ← cg_read cg (Z.to_nat g) j 0;
    y ← cg_read cg (Z.to_nat g) j 1;
    r ← cg_read cg (Z.to_nat g) j 2;
    Some (x, y, r)
  else None.

(** [animEase(currAnimFrame / (double) animFrames, nonLin)], where the
    quotient is a time in [[0, 1]] and the exponent is positive. *)
Definition interpolateStep_checked (st : state) : option R :=
  if (1 <=? animFrames st) && (0 <=? currAnimFrame st)
     && (currAnimFrame st <=? animFrames st)
  then if Rlt_dec 0 (nonLin st) then Some (interpolateStep st) else None
  else None.

(** The three arguments of one call of [drawCircle]. *)
Definition interpolate (curr next : R * R * R) (interpolateStep : R)
  : R * R * R :=
  let '(x0, y0, r0) := curr in
  let '(x1, y1, r1) := next in
  ((x0 * (1 - interpolateStep) + x1 * interpolateStep)%R,
   (y0 * (1 - interpolateStep) + y1 * interpolateStep)%R,
   (r0 * (1 - interpolateStep) + r1 * interpolateStep)%R).

(** The circles drawn, the vertices of the easing curve, and the globals
    after the call. *)
Definition animDisplay_frame (NUM_GROUPS : nat) (circleGroups : list (list (list R)))
    (groupOrder : list Z) (st : state)
  : option (list (R * R * R) * list (R * R) * state) :=
  interpolateStep ← interpolateStep_checked st;
  if Z.of_nat NUM_GROUPS =? 0 then None
  else
    let nextGroupIdx := uint (currGroupIdx st + 1) mod Z.of_nat NUM_GROUPS in
    currGroup ← arr_get groupOrder (currGroupIdx st);
    nextGroup ← arr_get groupOrder nextGroupIdx;
    circles ← for_loop_opt 4
      (λ j drawn,
         curr ← circle_read circleGroups currGroup j;
         next ← circle_read circleGroups nextGroup j;
         Some (drawn ++ [interpolate curr next interpolateStep]))
      [];
    let curve := drawInterpCurve st 0 0 80 40 100 in
    st' ← animDisplay NUM_GROUPS st;
    Some (circles, curve, st').

(** ** The main loop

    [main] registers [animDisplay] and [animSpecialKeys] and enters
    [glutMainLoop], which calls them one at a time: a redisplay for every
    timer tick ([animTimer] posts it), a special-key call for every arrow
    key. *)
Inductive event : Type :=
  | Redisplay
  | SpecialKey (key : special_key).

Definition dispatch (NUM_GROUPS : nat) (e : event) (st : state) : option state :=
  match e with
  | Redisplay => animDisplay NUM_GROUPS st
  | SpecialKey key => animSpecialKeys key st
  end.

Fixpoint mainLoop (NUM_GROUPS : nat) (events : list event) (st : state)
  : option state :=
  match events with
  | [] => Some st
  | e :: events' => st' ← dispatch NUM_GROUPS e st; mainLoop NUM_GROUPS events' st'
  end.

(** What the callbacks keep true of the globals: [nonLin] is the curve value
    of [nonLinCtl], [animFrames] is the frame count of [animDuration], and the
    [unsigned int] trackers hold representable values, the group index a valid
    one. *)
Definition globals_consistent (NUM_GROUPS : nat) (st : state) : Prop :=
  nonLin st = nonLinCtlCurve (nonLinCtl st)
  ∧ uint_of_double (animDuration st * double_of_uint FRAMERATE)%float
    = Some (animFrames st)
  ∧ 0 ≤ animFrames st ≤ UINT_MAX
  ∧ 0 ≤ currAnimFrame st ≤ UINT_MAX
  ∧ 0 ≤ currGroupIdx st < Z.of_nat NUM_GROUPS.

(** ** Sample data

    A table of three groups, a linear congruential generator in the place of
    [rnd_int32], and a state in the middle of a 54-frame transition; the
    statements below are instantiated on them. *)

Definition sample_circleGroups : list (list (list R)) :=
  [ [ [0; 0; 1]; [4; 0; 1]; [0; 4; 1]; [4; 4; 1] ];
    [ [1; 1; 2]; [3; 1; 2]; [5; 1; 2]; [7; 1; 2] ];
    [ [0; 0; 3]; [0; 0; 2]; [0; 0; 1]; [8; 4; 1] ] ]%R.

Definition sample_rnd_int32 (lo hi : Z) (seed : Z) : Z * Z :=
  (lo + seed mod (hi - lo), (seed * 1103515245 + 12345) mod 2 ^ 31).

Definition sample_state : state :=
  mkState 0.95%float 12 54 (nonLinCtlCurve 12) 0 27.

(** A generator that always answers 0 (an index of the array, below the lower
    bound from the second pass on), one that answers the upper bound (not an
    index), an order as the shuffle can leave it, and a state in the middle of
    a transition between the groups at places 1 and 2 of the order. *)
Definition sample_rnd_zero (lo hi : Z) (s : unit) : Z * unit := (0, s).
Definition sample_rnd_past (lo hi : Z) (s : unit) : Z * unit := (hi, s).
Definition sample_groupOrder : list Z := [2; 0; 1].
Definition sample_display_state : state := mkState 2.7%float 12 162 2%R 1 81.

(** * Properties *)

(** ** The animation clock *)

(** One redisplay, when the trackers are inside their ranges: the frame
    counter moves on by one modulo [animFrames], the group index moves to the
    next group when the counter is back at 0 and stays otherwise; the other
    globals are not touched. *)
Lemma animDisplay_step (N : nat) (d : float) (c F : Z) (nl : R) (g a : Z) :
  (0 < N)%nat → Z.of_nat N ≤ UINT_MAX →
  0 ≤ g < Z.of_nat N → 0 ≤ a < F → F ≤ UINT_MAX →
  animDisplay N (mkState d c F nl g a)
  = Some (mkState d c F nl
            (if (a + 1) mod F =? 0 then (g + 1) mod Z.of_nat N else g)
            ((a + 1) mod F)).
Proof.
  intros HN HNmax Hg Ha HF. unfold animDisplay, uint, UINT_MAX in *. simpl.
  destruct (Z.eqb_spec (Z.of_nat N) 0) as [E|_]; [lia|].
  destruct (Z.eqb_spec F 0) as [E|_]; [lia|].
  rewrite (Z.mod_small (g + 1)) by lia.
  rewrite (Z.mod_small (a + 1) (2 ^ 32)) by lia.
  reflexivity.
Qed.

(** [k] redisplays that end exactly at the end of the transition. *)
Lemma ticks_to_wrap (N : nat) (d : float) (c F : Z) (nl : R) (g : Z) :
  (0 < N)%nat → Z.of_nat N ≤ UINT_MAX → 0 ≤ g < Z.of_nat N → F ≤ UINT_MAX →
  ∀ (k : nat) (a : Z), (0 < k)%nat → 0 ≤ a → a + Z.of_nat k = F →
  ticks N k (mkState d c F nl g a)
  = Some (mkState d c F nl ((g + 1) mod Z.of_nat N) 0).
Proof.
  intros HN HNmax Hg HF. induction k as [|k IH]; intros a Hk Ha Hsum; [lia|].
  cbn [ticks]. rewrite animDisplay_step by lia. cbn [mbind option_bind].
  destruct k as [|k].
  - replace (a + 1) with F by lia. rewrite Z.mod_same by lia. reflexivity.
  - rewrite (Z.mod_small (a + 1) F) by lia.
    destruct (Z.eqb_spec (a + 1) 0) as [E|_]; [lia|].
    apply IH; lia.
Qed.

(** C1: from the clock [(currGroupIdx = g, currAnimFrame = 0)] with
    [g < NUM_GROUPS] and [animFrames = F >= 1], [F] redisplays without a key
    event lead to [currAnimFrame = 0] and [currGroupIdx = (g + 1) mod
    NUM_GROUPS], the other globals unchanged; and every redisplay inside a
    transition (frame counter [a < F]) sets the counter to [(a + 1) mod F] and
    moves the group index to the next group exactly when the counter is back
    at 0. *)
Theorem animDisplay_transition (N : nat) (d : float) (c F : Z) (nl : R) (g : Z) :
  (0 < N)%nat → Z.of_nat N ≤ UINT_MAX →
  0 ≤ g < Z.of_nat N → 1 ≤ F ≤ UINT_MAX →
  ticks N (Z.to_nat F) (mkState d c F nl g 0)
  = Some (mkState d c F nl ((g + 1) mod Z.of_nat N) 0)
  ∧ ∀ a, 0 ≤ a < F →
      ∃ st', animDisplay N (mkState d c F nl g a) = Some st'
      ∧ currAnimFrame st' = (a + 1) mod F
      ∧ animFrames st' = F
      ∧ (currAnimFrame st' = 0 → currGroupIdx st' = (g + 1) mod Z.of_nat N)
      ∧ (currAnimFrame st' ≠ 0 → currGroupIdx st' = g).
Proof.
  intros HN HNmax Hg HF. split.
  - apply ticks_to_wrap; lia.
  - intros a Ha. eexists. split; [apply animDisplay_step; lia|].
    cbn [currAnimFrame animFrames currGroupIdx].
    destruct (Z.eqb_spec ((a + 1) mod F) 0); repeat split; congruence.
Qed.

(** ** Key events *)

(** C9: while [nonLinCtl] is inside [[NON_LIN_CTL_LO, NON_LIN_CTL_HI]] =
    [[-1, 21]] it stays there under every sequence of key events; the up key
    at 21 and the down key at -1 leave the whole state, [nonLinCtl] and
    [nonLin] included, as it is; below 21 the up key adds 1 to [nonLinCtl],
    above -1 the down key subtracts 1, and both store
    [nonLinCtlCurve nonLinCtl] in [nonLin] and touch nothing else. *)
Theorem nonLinCtl_clamped (st : state) :
  NON_LIN_CTL_LO ≤ nonLinCtl st ≤ NON_LIN_CTL_HI →
  (∀ keys st', keyEvents keys st = Some st' →
     NON_LIN_CTL_LO ≤ nonLinCtl st' ≤ NON_LIN_CTL_HI)
  ∧ (nonLinCtl st = NON_LIN_CTL_HI → animSpecialKeys GLUT_KEY_UP st = Some st)
  ∧ (nonLinCtl st = NON_LIN_CTL_LO → animSpecialKeys GLUT_KEY_DOWN st = Some st)
  ∧ (nonLinCtl st < NON_LIN_CTL_HI →
     animSpecialKeys GLUT_KEY_UP st
     = Some (mkState (animDuration st) (nonLinCtl st + 1) (animFrames st)
               (nonLinCtlCurve (nonLinCtl st + 1))
               (currGroupIdx st) (currAnimFrame st)))
  ∧ (NON_LIN_CTL_LO < nonLinCtl st →
     animSpecialKeys GLUT_KEY_DOWN st
     = Some (mkState (animDuration st) (nonLinCtl st - 1) (animFrames st)
               (nonLinCtlCurve (nonLinCtl st - 1))
               (currGroupIdx st) (currAnimFrame st))).
Proof.
  intros Hb. split; [|unfold NON_LIN_CTL_LO, NON_LIN_CTL_HI in *;
                     cbn [animSpecialKeys]; repeat split; intros H].
  - intros keys. revert st Hb.
    induction keys as [|key keys IH]; intros st Hb st'; cbn [keyEvents].
    + intros [= <-]. lia.
    + destruct (animSpecialKeys key st) as [st1|] eqn:E; [|discriminate].
      cbn [mbind option_bind]. apply IH. clear IH.
      unfold NON_LIN_CTL_LO, NON_LIN_CTL_HI in *.
      destruct key; cbn [animSpecialKeys] in E.
      * destruct (_ <? _)%float; [|injection E as <-; lia].
        destruct (uint_of_double _); [|discriminate]. cbn [mbind option_bind] in E.
        destruct (rescale _ _ _); [|discriminate].
        injection E as <-. cbn [nonLinCtl]. lia.
      * destruct (uint_of_double _); [|discriminate]. cbn [mbind option_bind] in E.
        destruct (rescale _ _ _); [|discriminate].
        injection E as <-. cbn [nonLinCtl]. lia.
      * unfold NON_LIN_CTL_HI in E.
        destruct (Z.ltb_spec (nonLinCtl st) 21); injection E as <-;
          cbn [nonLinCtl]; lia.
      * unfold NON_LIN_CTL_LO in E.
        destruct (Z.ltb_spec (-1) (nonLinCtl st)); injection E as <-;
          cbn [nonLinCtl]; lia.
      * injection E as <-. lia.
  - unfold NON_LIN_CTL_HI. destruct (Z.ltb_spec (nonLinCtl st) 21); [lia|done].
  - unfold NON_LIN_CTL_LO. destruct (Z.ltb_spec (-1) (nonLinCtl st)); [lia|done].
  - unfold NON_LIN_CTL_HI. destruct (Z.ltb_spec (nonLinCtl st) 21); [done|lia].
  - unfold NON_LIN_CTL_LO. destruct (Z.ltb_spec (-1) (nonLinCtl st)); [done|lia].
Qed.

Lemma forall_below_spec (n : nat) (p : Z → bool) (z : Z) :
  forall_below n p = true → 0 ≤ z < Z.of_nat n → p z = true.
Proof.
  induction n as [|n IH]; cbn [forall_below]; [lia|].
  intros [Hp Hn]%andb_prop Hz.
  destruct (decide (z = Z.of_nat n)) as [->|Hne]; [done|]. apply IH; [done|lia].
Qed.

(** ** Binary64 arithmetic

    The three operations of [rescale] (two conversions, a division and a
    multiplication, then the truncation) analysed on the definitions that
    IEEE 754 gives them: each rounds to nearest with a relative error of at
    most [2^-53].  [brackets v mrs e] places the real [v] relative to the
    mantissa, round bit and sticky bit of a shift record at exponent [e]. *)

Lemma bpow_pos (e : Z) : (0 < bpow e)%R.
Proof. apply powerRZ_lt. lra. Qed.

Lemma bpow_add (a b : Z) : bpow (a + b) = (bpow a * bpow b)%R.
Proof. apply powerRZ_add. lra. Qed.

Lemma bpow_succ (e : Z) : bpow (e + 1) = (2 * bpow e)%R.
Proof.
  rewrite bpow_add. replace (bpow 1) with 2%R; [lra|].
  unfold bpow. simpl. lra.
Qed.

Lemma bpow_IZR (k : Z) : 0 ≤ k → bpow k = IZR (2 ^ k).
Proof.
  intros Hk. pattern k. apply natlike_ind; [reflexivity| |exact Hk].
  intros x Hx IH. unfold Z.succ. rewrite bpow_succ, IH, Z.pow_add_r by lia.
  rewrite mult_IZR. change (IZR (2 ^ 1)) with 2%R. lra.
Qed.

Lemma digits2_pos_spec (p : positive) :
  2 ^ (Z.pos (digits2_pos p) - 1) ≤ Z.pos p < 2 ^ Z.pos (digits2_pos p).
Proof.
  induction p as [p IH|p IH|]; cbn [digits2_pos].
  - rewrite Pos2Z.inj_succ. unfold Z.succ.
    replace (Z.pos (digits2_pos p) + 1 - 1) with (Z.pos (digits2_pos p) - 1 + 1) by lia.
    rewrite !Z.pow_add_r by lia. lia.
  - rewrite Pos2Z.inj_succ. unfold Z.succ.
    replace (Z.pos (digits2_pos p) + 1 - 1) with (Z.pos (digits2_pos p) - 1 + 1) by lia.
    rewrite !Z.pow_add_r by lia. lia.
  - cbn. lia.
Qed.

Lemma digits2_pos_unique (p : positive) (k : Z) :
  2 ^ (k - 1) ≤ Z.pos p < 2 ^ k → Z.pos (digits2_pos p) = k.
Proof.
  intros [Hlo Hhi]. pose proof (digits2_pos_spec p) as [Dlo Dhi].
  assert (0 < k).
  { destruct (Z_lt_le_dec 0 k); [done|]. 
    assert (2 ^ k ≤ 1); [|lia].
    destruct (Z.eq_dec k 0) as [->|]; [done|]. rewrite Z.pow_neg_r; lia. }
  destruct (Z_lt_le_dec (Z.pos (digits2_pos p)) k).
  - assert (2 ^ Z.pos (digits2_pos p) ≤ 2 ^ (k - 1)) by (apply Z.pow_le_mono_r; lia).
    lia.
  - destruct (Z_lt_le_dec k (Z.pos (digits2_pos p))); [|lia].
    assert (2 ^ k ≤ 2 ^ (Z.pos (digits2_pos p) - 1)) by (apply Z.pow_le_mono_r; lia).
    lia.
Qed.

Lemma shr_1_brackets (v : R) (mrs : shr_record) (e : Z) :
  brackets v mrs e → brackets v (shr_1 mrs) (e + 1).
Proof.
  destruct mrs as [m r s]. unfold brackets. cbn [shr_m shr_r shr_s].
  intros [Hm Hv]. rewrite bpow_succ. pose proof (bpow_pos e) as HB.
  destruct m as [|p|p]; [| |lia].
  - destruct r, s; cbn; (split; [lia|]); lra.
  - destruct p as [p|p|].
    + change (Z.pos p~1) with (2 * Z.pos p + 1) in Hv.
      rewrite plus_IZR, mult_IZR in Hv.
      destruct r, s; cbn; (split; [lia|]); lra.
    + change (Z.pos p~0) with (2 * Z.pos p) in Hv.
      rewrite mult_IZR in Hv.
      destruct r, s; cbn; (split; [lia|]); lra.
    + destruct r, s; cbn; (split; [lia|]); lra.
Qed.

Lemma iter_pos_brackets (v : R) (p : positive) :
  ∀ (mrs : shr_record) (e : Z),
    brackets v mrs e → brackets v (SpecFloat.iter_pos shr_1 p mrs) (e + Z.pos p).
Proof.
  induction p as [p IH|p IH|]; intros mrs e H; cbn [SpecFloat.iter_pos].
  - replace (e + Z.pos p~1) with (e + 1 + Z.pos p + Z.pos p) by lia.
    by apply IH, IH, shr_1_brackets.
  - replace (e + Z.pos p~0) with (e + Z.pos p + Z.pos p) by lia.
    by apply IH, IH.
  - by apply shr_1_brackets.
Qed.

Lemma shr_brackets (v : R) (mrs : shr_record) (e n : Z) :
  brackets v mrs e → 0 ≤ n →
  (shr mrs e n).2 = e + n ∧ brackets v (shr mrs e n).1 (e + n).
Proof.
  intros H Hn. destruct n as [|p|p]; [| |lia]; cbn [shr fst snd].
  - rewrite Z.add_0_r. done.
  - split; [done|]. by apply iter_pos_brackets.
Qed.

Lemma brackets_range (v : R) (mrs : shr_record) (e : Z) :
  brackets v mrs e →
  (IZR (shr_m mrs) * bpow e <= v < (IZR (shr_m mrs) + 1) * bpow e)%R.
Proof.
  intros [_ H]. pose proof (bpow_pos e). destruct (shr_r mrs), (shr_s mrs); lra.
Qed.

Lemma round_nearest_even_brackets (v : R) (mrs : shr_record) (e : Z) :
  brackets v mrs e →
  let m := round_nearest_even (shr_m mrs) (loc_of_shr_record mrs) in
  shr_m mrs ≤ m ≤ shr_m mrs + 1
  ∧ (- (bpow e / 2) <= IZR m * bpow e - v <= bpow e / 2)%R.
Proof.
  destruct mrs as [m r s]. intros [Hm Hv]. cbn [shr_m shr_r shr_s] in *.
  pose proof (bpow_pos e) as HB. cbv zeta.
  destruct r, s; cbn [loc_of_shr_record round_nearest_even].
  - split; [lia|]. rewrite plus_IZR. lra.
  - destruct (Z.even m); (split; [lia|]); try rewrite plus_IZR; lra.
  - split; [lia|]. lra.
  - split; [lia|]. lra.
Qed.

Lemma IZR_bpow_lt (a b : Z) (e : Z) :
  (IZR a * bpow e < IZR b * bpow e)%R → a < b.
Proof.
  intros H. apply lt_IZR. pose proof (bpow_pos e).
  apply (Rmult_lt_reg_r (bpow e)); done.
Qed.

(** Rounding to binary64 of a positive value given by a mantissa of at least
    53 digits and its position, in the normal range. *)
Lemma binary_round_aux_correct (mx : positive) (ex : Z) (lx : location) (v : R) :
  brackets v (shr_record_of_loc (Z.pos mx) lx) ex →
  53 ≤ Z.pos (digits2_pos mx) →
  -1074 ≤ ex + Z.pos (digits2_pos mx) - 53 →
  ex + Z.pos (digits2_pos mx) - 52 ≤ 971 →
  ∃ (m : positive) (e : Z),
    binary_round_aux prec emax false (Z.pos mx) ex lx = S754_finite false m e
    ∧ 2 ^ 52 ≤ Z.pos m < 2 ^ 53
    ∧ ex + Z.pos (digits2_pos mx) - 53 ≤ e ≤ ex + Z.pos (digits2_pos mx) - 52
    ∧ (- (v / 9007199254740992) <= IZR (Z.pos m) * bpow e - v
       <= v / 9007199254740992)%R.
Proof.
  intros Hb Hd Hmin Hmax. set (d := Z.pos (digits2_pos mx)) in *.
  unfold binary_round_aux, shr_fexp.
  change (Zdigits2 (Z.pos mx)) with d.
  assert (Hfexp : ∀ x, -1074 ≤ x - 53 → fexp prec emax x = x - 53).
  { intros x Hx. unfold fexp, SpecFloat.emin, prec, emax. lia. }
  rewrite Hfexp by lia.
  destruct (shr_brackets v (shr_record_of_loc (Z.pos mx) lx) ex (d + ex - 53 - ex) Hb)
    as [He1 Hb1]; [lia|].
  destruct (shr (shr_record_of_loc (Z.pos mx) lx) ex (d + ex - 53 - ex))
    as [mrs1 e1]. cbn [fst snd] in He1, Hb1. subst e1.
  replace (ex + (d + ex - 53 - ex)) with (ex + d - 53) in * by lia.
  set (e1 := ex + d - 53) in *.
  pose proof (bpow_pos e1) as HB1.
  (* the value lies in [2^52, 2^53) ulps *)
  assert (Hv : (4503599627370496 * bpow e1 <= v < 9007199254740992 * bpow e1)%R).
  { pose proof (brackets_range _ _ _ Hb) as Hr.
    assert (Hsh : shr_m (shr_record_of_loc (Z.pos mx) lx) = Z.pos mx)
      by (by destruct lx as [|[]]).
    rewrite Hsh in Hr. clear Hsh.
    pose proof (digits2_pos_spec mx) as [Dlo Dhi]. fold d in Dlo, Dhi.
    set (P := IZR (2 ^ (d - 53))).
    assert (HB1eq : bpow e1 = (bpow ex * P)%R).
    { unfold e1, P. replace (ex + d - 53) with (ex + (d - 53)) by lia.
      rewrite bpow_add, (bpow_IZR (d - 53)) by lia. done. }
    assert (Hmx1 : (4503599627370496 * P <= IZR (Z.pos mx))%R).
    { unfold P. change 4503599627370496%R with (IZR (2 ^ 52)).
      rewrite <- mult_IZR, <- Z.pow_add_r by lia. apply IZR_le.
      by replace (52 + (d - 53)) with (d - 1) by lia. }
    assert (Hmx2 : (IZR (Z.pos mx) + 1 <= 9007199254740992 * P)%R).
    { unfold P. change 9007199254740992%R with (IZR (2 ^ 53)).
      rewrite <- mult_IZR, <- Z.pow_add_r, <- plus_IZR by lia. apply IZR_le.
      replace (53 + (d - 53)) with d by lia. lia. }
    pose proof (bpow_pos ex) as HB0. rewrite HB1eq. nra. }
  pose proof (brackets_range _ _ _ Hb1) as Hr1.
  destruct (round_nearest_even_brackets _ _ _ Hb1) as [Hm2 Herr].
  set (m1 := shr_m mrs1) in *.
  set (m2 := round_nearest_even m1 (loc_of_shr_record mrs1)) in *.
  assert (Hm1 : 2 ^ 52 ≤ m1 < 2 ^ 53).
  { split.
    - enough (2 ^ 52 < m1 + 1) by lia. apply lt_IZR. rewrite plus_IZR.
      change (IZR (2 ^ 52)) with 4503599627370496%R. nra.
    - apply lt_IZR. change (IZR (2 ^ 53)) with 9007199254740992%R. nra. }
  destruct (decide (m2 = 2 ^ 53)) as [Heq|Hne].
  - rewrite Heq in *. change (2 ^ 53) with 9007199254740992 in *.
    change (Zdigits2 9007199254740992) with 54.
    rewrite Hfexp by lia. replace (54 + e1 - 53 - e1) with 1 by lia.
    cbn [shr_record_of_loc shr SpecFloat.iter_pos shr_1 shr_m].
    replace (e1 + 1 <=? emax - prec) with true
      by (symmetry; apply Z.leb_le; unfold emax, prec; lia).
    exists 4503599627370496%positive, (e1 + 1).
    split; [reflexivity|]. split; [done|]. split; [lia|].
    rewrite bpow_succ. lra.
  - destruct m2 as [|p2|p2] eqn:Em2; [lia| |lia].
    assert (Hd2 : Z.pos (digits2_pos p2) = 53)
      by (apply digits2_pos_unique; lia).
    cbn [Zdigits2]. rewrite Hd2, Hfexp by lia.
    replace (53 + e1 - 53 - e1) with 0 by lia.
    cbn [shr_record_of_loc shr shr_m].
    replace (e1 <=? emax - prec) with true
      by (symmetry; apply Z.leb_le; unfold emax, prec; lia).
    exists p2, e1. split; [reflexivity|]. split; [lia|]. split; [lia|].
    lra.
Qed.

Lemma binary_round_aux_exact (m : positive) (e : Z) :
  Z.pos (digits2_pos m) = 53 → -1074 ≤ e ≤ 971 →
  binary_round_aux prec emax false (Z.pos m) e loc_Exact = S754_finite false m e.
Proof.
  intros Hd He. unfold binary_round_aux, shr_fexp. cbn [Zdigits2].
  rewrite Hd.
  replace (fexp prec emax (53 + e) - e) with 0
    by (unfold fexp, SpecFloat.emin, prec, emax; lia).
  cbn [shr_record_of_loc shr shr_m loc_of_shr_record round_nearest_even Zdigits2].
  rewrite Hd.
  replace (fexp prec emax (53 + e) - e) with 0
    by (unfold fexp, SpecFloat.emin, prec, emax; lia).
  cbn [shr_record_of_loc shr shr_m].
  replace (e <=? emax - prec) with true
    by (symmetry; apply Z.leb_le; unfold emax, prec; lia).
  reflexivity.
Qed.

Lemma Pos_iter_xO (p n : positive) :
  Z.pos (Pos.iter xO p n) = Z.pos p * 2 ^ Z.pos n.
Proof.
  induction n as [|n IH] using Pos.peano_ind.
  - cbn. lia.
  - rewrite Pos.iter_succ, Pos2Z.inj_succ, Z.pow_succ_r by lia.
    rewrite Pos2Z.inj_xO, IH. lia.
Qed.

(** The conversion of a positive 32-bit integer is exact. *)
Lemma double_of_uint_spec (z : Z) :
  0 < z ≤ UINT_MAX →
  ∃ (m : positive) (e : Z),
    Prim2SF (double_of_uint z) = S754_finite false m e
    ∧ 2 ^ 52 ≤ Z.pos m < 2 ^ 53
    ∧ -52 ≤ e ≤ -21
    ∧ (IZR (Z.pos m) * bpow e)%R = IZR z.
Proof.
  intros Hz. unfold double_of_uint, UINT_MAX in *.
  rewrite of_uint63_spec, Uint63.of_Z_spec.
  rewrite Z.mod_small by (change Uint63.wB with (2 ^ 63) in *; lia).
  destruct z as [|p|p]; [lia| |lia]. cbn [binary_normalize].
  unfold binary_round.
  pose proof (digits2_pos_spec p) as [Dlo Dhi].
  set (d := Z.pos (digits2_pos p)) in *.
  assert (Hd : 1 ≤ d ≤ 32).
  { split; [unfold d; lia|].
    destruct (Z_lt_le_dec 32 d); [|done].
    assert (2 ^ 32 ≤ 2 ^ (d - 1)) by (apply Z.pow_le_mono_r; lia). lia. }
  replace (fexp prec emax (d + 0)) with (d - 53)
    by (unfold fexp, SpecFloat.emin, prec, emax; lia).
  unfold shl_align. rewrite Z.sub_0_r.
  destruct (d - 53) as [|k|k] eqn:Ek; [lia|lia|].
  assert (Hk : Z.pos k = 53 - d) by lia.
  pose proof (Pos_iter_xO p k) as Hval. rewrite Hk in Hval.
  set (mz := Pos.iter xO p k) in *.
  assert (Hmz : 2 ^ 52 ≤ Z.pos mz < 2 ^ 53).
  { rewrite Hval.
    assert (E52 : 2 ^ 52 = 2 ^ (d - 1) * 2 ^ (53 - d))
      by (rewrite <- Z.pow_add_r by lia; f_equal; lia).
    assert (E53 : 2 ^ 53 = 2 ^ d * 2 ^ (53 - d))
      by (rewrite <- Z.pow_add_r by lia; f_equal; lia).
    assert (0 < 2 ^ (53 - d)) by (apply Z.pow_pos_nonneg; lia).
    rewrite E52, E53. nia. }
  rewrite binary_round_aux_exact; [|apply digits2_pos_unique; lia|lia].
  exists mz, (Z.neg k). split; [done|]. split; [done|]. split; [lia|].
  rewrite Hval, mult_IZR. replace (Z.neg k) with (- (53 - d)) by lia.
  rewrite <- bpow_IZR by lia. rewrite Rmult_assoc, <- bpow_add.
  replace (53 - d + - (53 - d)) with 0 by lia. unfold bpow. cbn. lra.
Qed.

Lemma double_of_uint_zero : Prim2SF (double_of_uint 0) = S754_zero false.
Proof. reflexivity. Qed.

(** The position that the division reports for the remainder. *)
Lemma new_location_brackets (q r my : Z) (e : Z) (v : R) :
  0 ≤ q → 0 ≤ r < my →
  (v * IZR my = (IZR q * IZR my + IZR r) * bpow e)%R →
  brackets v (shr_record_of_loc q (new_location my r)) e.
Proof.
  intros Hq Hr Hv. pose proof (bpow_pos e) as HB.
  assert (HM : (0 < IZR my)%R) by (apply IZR_lt; lia).
  assert (HR : (0 <= IZR r)%R) by (apply IZR_le; lia).
  (* the fractional part, in ulps *)
  set (t := (IZR r / IZR my)%R).
  assert (Ht : (t * IZR my = IZR r)%R) by (unfold t; field; lra).
  assert (Hvt : v = ((IZR q + t) * bpow e)%R).
  { apply (Rmult_eq_reg_r (IZR my)); [|lra]. rewrite Hv. 
    rewrite <- Ht. ring. }
  assert (Hcmp : ∀ c, (2 * r ?= my) = c →
    match c with
    | Lt => (0 <= t < 1 / 2)%R | Eq => t = (1 / 2)%R | Gt => (1 / 2 < t)%R
    end).
  { intros c Hc. destruct c.
    - apply Z.compare_eq in Hc. apply (f_equal IZR) in Hc.
      rewrite mult_IZR in Hc. nra.
    - rewrite Z.compare_lt_iff in Hc. apply IZR_lt in Hc.
      rewrite mult_IZR in Hc. nra.
    - rewrite Z.compare_gt_iff in Hc. apply IZR_lt in Hc.
      rewrite mult_IZR in Hc. nra. }
  assert (Ht1 : (t < 1)%R).
  { assert (IZR r < IZR my)%R by (apply IZR_lt; lia). nra. }
  assert (Ht0 : r = 0 → t = 0%R).
  { intros ->. unfold t, Rdiv. change (IZR 0) with 0%R. ring. }
  assert (Htpos : r ≠ 0 → (0 < t)%R).
  { intros Hr0. assert (0 < IZR r)%R by (apply IZR_lt; lia). nra. }
  unfold new_location.
  destruct (Z.even my) eqn:Heven;
    unfold new_location_even, new_location_odd;
    destruct (Z.eqb_spec r 0) as [Hr0|Hr0].
  - split; [cbn; lia|]. cbn [shr_record_of_loc shr_m shr_r shr_s].
    rewrite Hvt, (Ht0 Hr0). ring.
  - pose proof (Hcmp _ eq_refl) as H2. pose proof (Htpos Hr0).
    destruct (2 * r ?= my); (split; [cbn; lia|]);
      cbn [shr_record_of_loc shr_m shr_r shr_s]; rewrite Hvt; nra.
  - split; [cbn; lia|]. cbn [shr_record_of_loc shr_m shr_r shr_s].
    rewrite Hvt, (Ht0 Hr0). ring.
  - assert (Hodd : 2 * r ≠ my).
    { intros E. rewrite <- E, Z.even_mul in Heven. done. }
    pose proof (Hcmp _ eq_refl) as H2. pose proof (Htpos Hr0).
    destruct (2 * r + 1 ?= my) eqn:E1.
    + apply Z.compare_eq in E1.
      assert (E2 : (2 * r ?= my) = Lt) by (apply Z.compare_lt_iff; lia).
      rewrite E2 in H2. split; [cbn; lia|].
      cbn [shr_record_of_loc shr_m shr_r shr_s]. rewrite Hvt. nra.
    + rewrite Z.compare_lt_iff in E1.
      assert (E2 : (2 * r ?= my) = Lt) by (apply Z.compare_lt_iff; lia).
      rewrite E2 in H2. split; [cbn; lia|].
      cbn [shr_record_of_loc shr_m shr_r shr_s]. rewrite Hvt. nra.
    + rewrite Z.compare_gt_iff in E1.
      assert (E2 : (2 * r ?= my) = Gt) by (apply Z.compare_gt_iff; lia).
      rewrite E2 in H2. split; [cbn; lia|].
      cbn [shr_record_of_loc shr_m shr_r shr_s]. rewrite Hvt. nra.
Qed.

Lemma digits_between (p : positive) (lo hi : Z) :
  0 ≤ lo → 2 ^ lo ≤ Z.pos p < 2 ^ hi → lo < Z.pos (digits2_pos p) ≤ hi.
Proof.
  intros Hlo [H1 H2]. pose proof (digits2_pos_spec p) as [D1 D2].
  set (d := Z.pos (digits2_pos p)) in *. split.
  - destruct (Z_lt_le_dec lo d); [done|].
    assert (2 ^ d ≤ 2 ^ lo) by (apply Z.pow_le_mono_r; lia). lia.
  - destruct (Z_lt_le_dec hi d); [|done].
    assert (2 ^ hi ≤ 2 ^ (d - 1)) by (apply Z.pow_le_mono_r; lia). lia.
Qed.

(** Division of two positive normal numbers, away from overflow and
    underflow: the quotient is correct to a relative error of 2^-53. *)
Lemma SFdiv_correct (mx my : positive) (ex ey : Z) :
  2 ^ 52 ≤ Z.pos mx < 2 ^ 53 → 2 ^ 52 ≤ Z.pos my < 2 ^ 53 →
  -500 ≤ ex - ey ≤ 500 →
  let v := (IZR (Z.pos mx) * bpow ex / (IZR (Z.pos my) * bpow ey))%R in
  ∃ (m : positive) (e : Z),
    SFdiv prec emax (S754_finite false mx ex) (S754_finite false my ey)
    = S754_finite false m e
    ∧ 2 ^ 52 ≤ Z.pos m < 2 ^ 53
    ∧ ex - ey - 53 ≤ e ≤ ex - ey - 51
    ∧ (- (v / 9007199254740992) <= IZR (Z.pos m) * bpow e - v
       <= v / 9007199254740992)%R.
Proof.
  intros Hmx Hmy He v.
  assert (Hdx : Z.pos (digits2_pos mx) = 53) by (apply digits2_pos_unique; lia).
  assert (Hdy : Z.pos (digits2_pos my) = 53) by (apply digits2_pos_unique; lia).
  unfold SFdiv, SFdiv_core_binary. cbn [Zdigits2 xorb]. rewrite Hdx, Hdy.
  replace (Z.min (fexp prec emax (53 + ex - (53 + ey))) (ex - ey))
    with (ex - ey - 53) by (unfold fexp, SpecFloat.emin, prec, emax; lia).
  replace (ex - ey - (ex - ey - 53)) with 53 by lia.
  rewrite Z.shiftl_mul_pow2 by lia.
  pose proof (Z_div_mod (Z.pos mx * 2 ^ 53) (Z.pos my) ltac:(lia)) as Hdiv.
  destruct (Z.div_eucl (Z.pos mx * 2 ^ 53) (Z.pos my)) as [q r].
  destruct Hdiv as [Hqr Hr].
  assert (Hq : 2 ^ 52 ≤ q < 2 ^ 54).
  { change (2 ^ 54) with (2 * 2 ^ 53). change (2 ^ 53) with (2 * 2 ^ 52) in *.
    nia. }
  destruct q as [|pq|pq]; [lia| |lia].
  pose proof (digits_between pq 52 54 ltac:(lia) Hq) as Hdq.
  set (e' := ex - ey - 53).
  assert (Hb : brackets v (shr_record_of_loc (Z.pos pq) (new_location (Z.pos my) r)) e').
  { apply new_location_brackets; [lia|lia|].
    pose proof (bpow_pos ex). pose proof (bpow_pos ey).
    assert (0 < IZR (Z.pos my))%R by (apply IZR_lt; lia).
    assert (HZ : (IZR (Z.pos mx) * IZR (2 ^ 53)
                  = IZR (Z.pos my) * IZR (Z.pos pq) + IZR r)%R)
      by (rewrite <- !mult_IZR, <- plus_IZR; by f_equal).
    assert (HBx : bpow ex = (bpow e' * IZR (2 ^ 53) * bpow ey)%R).
    { unfold e'. replace ex with (ex - ey - 53 + 53 + ey) at 1 by lia.
      rewrite !bpow_add, (bpow_IZR 53) by lia. done. }
    transitivity (IZR (Z.pos mx) * IZR (2 ^ 53) * bpow e')%R.
    - unfold v. rewrite HBx. field. lra.
    - rewrite HZ. ring. }
  destruct (binary_round_aux_correct pq e' _ v Hb) as (m & e & Hres & Hm & Hex & Herr);
    [lia|lia|lia|].
  exists m, e. split; [done|]. split; [done|]. split; [lia|done].
Qed.

(** Multiplication of two positive normal numbers, away from overflow and
    underflow. *)
Lemma SFmul_correct (mx my : positive) (ex ey : Z) :
  2 ^ 52 ≤ Z.pos mx < 2 ^ 53 → 2 ^ 52 ≤ Z.pos my < 2 ^ 53 →
  -500 ≤ ex + ey ≤ 500 →
  let v := (IZR (Z.pos mx) * bpow ex * (IZR (Z.pos my) * bpow ey))%R in
  ∃ (m : positive) (e : Z),
    SFmul prec emax (S754_finite false mx ex) (S754_finite false my ey)
    = S754_finite false m e
    ∧ 2 ^ 52 ≤ Z.pos m < 2 ^ 53
    ∧ (- (v / 9007199254740992) <= IZR (Z.pos m) * bpow e - v
       <= v / 9007199254740992)%R.
Proof.
  intros Hmx Hmy He v. unfold SFmul. cbn [xorb].
  assert (Hp : 2 ^ 104 ≤ Z.pos (mx * my) < 2 ^ 106).
  { rewrite Pos2Z.inj_mul. change (2 ^ 104) with (2 ^ 52 * 2 ^ 52).
    change (2 ^ 106) with (2 ^ 53 * 2 ^ 53). nia. }
  pose proof (digits_between (mx * my) 104 106 ltac:(lia) Hp) as Hd.
  assert (Hb : brackets v (shr_record_of_loc (Z.pos (mx * my)) loc_Exact) (ex + ey)).
  { split; [cbn; lia|]. cbn. unfold v.
    rewrite Pos2Z.inj_mul, mult_IZR, bpow_add. ring. }
  destruct (binary_round_aux_correct (mx * my) (ex + ey) _ v Hb)
    as (m & e & Hres & Hm & Hex & Herr); [lia|lia|lia|].
  exists m, e. done.
Qed.

(** Truncation of a positive finite number by a shift of its mantissa. *)
Lemma shiftl_floor (m : positive) (e : Z) :
  (IZR (Z.shiftl (Z.pos m) e) <= IZR (Z.pos m) * bpow e
   < IZR (Z.shiftl (Z.pos m) e) + 1)%R.
Proof.
  destruct (Z_lt_le_dec e 0) as [Hneg|Hpos].
  - rewrite Z.shiftl_div_pow2 by lia.
    set (k := - e). assert (Hk : 0 < k) by (unfold k; lia).
    assert (HP : 0 < 2 ^ k) by (apply Z.pow_pos_nonneg; lia).
    pose proof (Z_div_mod (Z.pos m) (2 ^ k) ltac:(lia)) as Hdiv.
    unfold Z.div. destruct (Z.div_eucl (Z.pos m) (2 ^ k)) as [q r].
    destruct Hdiv as [-> Hr].
    replace e with (- k) by (unfold k; lia).
    assert (HB : (bpow (- k) * IZR (2 ^ k) = 1)%R).
    { rewrite <- bpow_IZR, <- bpow_add by lia.
      replace (- k + k) with 0 by lia. unfold bpow. cbn. lra. }
    pose proof (bpow_pos (- k)) as HBp.
    assert (HPr : (0 < IZR (2 ^ k))%R) by (apply IZR_lt; lia).
    assert (Hr0 : (0 <= IZR r)%R) by (apply IZR_le; lia).
    assert (Hr1 : (IZR r < IZR (2 ^ k))%R) by (apply IZR_lt; lia).
    rewrite plus_IZR, mult_IZR.
    replace ((IZR (2 ^ k) * IZR q + IZR r) * bpow (- k))%R
      with (IZR q * (bpow (- k) * IZR (2 ^ k)) + IZR r * bpow (- k))%R by ring.
    rewrite HB.
    assert (0 <= IZR r * bpow (- k))%R by (apply Rmult_le_pos; lra).
    assert (IZR r * bpow (- k) < IZR (2 ^ k) * bpow (- k))%R
      by (apply Rmult_lt_compat_r; lra).
    lra.
  - rewrite Z.shiftl_mul_pow2 by lia. rewrite mult_IZR, bpow_IZR by lia. lra.
Qed.

(** Two roundings of relative error [k] in a row. *)
Lemma two_roundings (C N Qo Po k : R) :
  (0 <= C → 0 <= N → 0 <= k <= 1 →
   - (C * k) <= Qo - C <= C * k →
   - (Qo * N * k) <= Po - Qo * N <= Qo * N * k →
   - (3 * (C * N) * k) <= Po - C * N <= 3 * (C * N) * k)%R.
Proof.
  intros HC HN Hk HQ HP.
  assert (HCN : (0 <= C * N)%R) by (by apply Rmult_le_pos).
  assert (HCNk : (0 <= C * N * k)%R) by (apply Rmult_le_pos; lra).
  assert (HCNkk : (C * N * k * k <= C * N * k)%R).
  { rewrite <- (Rmult_1_r (C * N * k)) at 2. apply Rmult_le_compat_l; lra. }
  assert (HCNkk0 : (0 <= C * N * k * k)%R) by (apply Rmult_le_pos; lra).
  assert (HQN1 : (Qo * N <= C * N + C * N * k)%R).
  { replace (C * N + C * N * k)%R with ((C + C * k) * N)%R by ring.
    apply Rmult_le_compat_r; lra. }
  assert (HQN2 : (C * N - C * N * k <= Qo * N)%R).
  { replace (C * N - C * N * k)%R with ((C - C * k) * N)%R by ring.
    apply Rmult_le_compat_r; lra. }
  assert (HQNk1 : (Qo * N * k <= C * N * k + C * N * k * k)%R).
  { replace (C * N * k + C * N * k * k)%R with ((C * N + C * N * k) * k)%R by ring.
    apply Rmult_le_compat_r; lra. }
  assert (HQNk0 : (0 <= Qo * N * k)%R).
  { apply Rmult_le_pos; [|lra]. apply Rmult_le_pos; [|lra].
    assert (C * k <= C)%R; [|lra].
    rewrite <- (Rmult_1_r C) at 2. apply Rmult_le_compat_l; lra. }
  lra.
Qed.

Lemma rescale_zero (old new : Z) :
  0 < old ≤ UINT_MAX → 0 < new ≤ UINT_MAX → rescale 0 old new = Some 0.
Proof.
  intros Hold Hnew. unfold rescale, uint_of_double.
  destruct (double_of_uint_spec old Hold) as (mb & eb & HB & _).
  destruct (double_of_uint_spec new Hnew) as (mc & ec & HC & _).
  rewrite mul_spec, div_spec, double_of_uint_zero, HB, HC. reflexivity.
Qed.

(** The frame index after a change of the frame count, for every frame index
    inside the old transition and all frame counts an [unsigned int] holds. *)
Lemma rescale_correct (c old new : Z) :
  0 ≤ c < old → old ≤ UINT_MAX → 1 ≤ new ≤ UINT_MAX →
  ∃ c', rescale c old new = Some c'
    ∧ 0 ≤ c' < new
    ∧ (c' - 1) * old < c * new < (c' + 2) * old
    ∧ (old * new ≤ 2 ^ 50 → c' * old ≤ c * new ≤ (c' + 1) * old).
Proof.
  intros Hc Hold Hnew.
  destruct (Z.eq_dec c 0) as [->|Hc0].
  { exists 0. rewrite rescale_zero by lia. split; [done|]. lia. }
  destruct (double_of_uint_spec c ltac:(lia)) as (ma & ea & HA & Hma & Hea & Va).
  destruct (double_of_uint_spec old ltac:(lia)) as (mb & eb & HB & Hmb & Heb & Vb).
  destruct (double_of_uint_spec new ltac:(lia)) as (mc & ec & HC & Hmc & Hec & Vc).
  destruct (SFdiv_correct ma mb ea eb Hma Hmb ltac:(lia))
    as (mq & eq & HQ & Hmq & Heq & Eq).
  destruct (SFmul_correct mq mc eq ec Hmq Hmc ltac:(lia))
    as (mp & ep & HP & Hmp & Ep).
  cbv zeta in Eq, Ep. rewrite Va, Vb in Eq. rewrite Vc in Ep.
  pose proof (shiftl_floor mp ep) as Hfl.
  set (c' := Z.shiftl (Z.pos mp) ep) in *.
  set (Qv := (IZR (Z.pos mq) * bpow eq)%R) in *.
  set (Pv := (IZR (Z.pos mp) * bpow ep)%R) in *.
  unfold UINT_MAX in *.
  assert (HC1 : (1 <= IZR c)%R) by (apply IZR_le; lia).
  assert (HCO : (IZR c + 1 <= IZR old)%R)
    by (rewrite <- plus_IZR; apply IZR_le; lia).
  assert (HO : (IZR old <= 4294967295)%R) by (apply IZR_le; lia).
  assert (HN1 : (1 <= IZR new)%R) by (apply IZR_le; lia).
  assert (HN : (IZR new <= 4294967295)%R) by (apply IZR_le; lia).
  (* both roundings, in units of 1 / old *)
  assert (Hk : (- (3 * (IZR c * IZR new) * / 9007199254740992)
                <= Pv * IZR old - IZR c * IZR new
                <= 3 * (IZR c * IZR new) * / 9007199254740992)%R).
  { apply two_roundings with (Qo := (Qv * IZR old)%R); try lra.
    - replace (Qv * IZR old - IZR c)%R
        with ((Qv - IZR c / IZR old) * IZR old)%R by (field; lra).
      replace (IZR c * / 9007199254740992)%R
        with (IZR c / IZR old / 9007199254740992 * IZR old)%R by (field; lra).
      split.
      + rewrite Ropp_mult_distr_l. apply Rmult_le_compat_r; lra.
      + apply Rmult_le_compat_r; lra.
    - replace (Pv * IZR old - Qv * IZR old * IZR new)%R
        with ((Pv - Qv * IZR new) * IZR old)%R by ring.
      replace (Qv * IZR old * IZR new * / 9007199254740992)%R
        with (Qv * IZR new / 9007199254740992 * IZR old)%R by (field; lra).
      split.
      + rewrite Ropp_mult_distr_l. apply Rmult_le_compat_r; lra.
      + apply Rmult_le_compat_r; lra. }
  assert (Hc'0 : 0 ≤ c') by (unfold c'; apply Z.shiftl_nonneg; lia).
  assert (Hres : rescale c old new
                 = if (0 <=? c') && (c' <=? 2 ^ 32 - 1) then Some c' else None).
  { unfold rescale, uint_of_double.
    rewrite mul_spec, div_spec, HA, HB, HC.
    unfold SF64mul, SF64div. rewrite HQ, HP. reflexivity. }
  clearbody Pv Qv c'.
  clear Eq Ep HA HB HC HQ HP Va Vb Vc Hma Hmb Hmc Hmq Hmp Hea Heb Hec Heq.
  assert (HCN : (0 <= IZR c * IZR new)%R) by (apply Rmult_le_pos; lra).
  assert (HCN1 : (IZR c * IZR new <= IZR c * 4294967295)%R)
    by (apply Rmult_le_compat_l; lra).
  (* the exact position in Z *)
  assert (Hlow : (c' - 1) * old < c * new).
  { apply lt_IZR. rewrite !mult_IZR, minus_IZR.
    assert (H : ((IZR c' - 1) * IZR old <= (Pv - 1) * IZR old)%R)
      by (apply Rmult_le_compat_r; lra).
    clear - H Hk HCN HCN1 HCO HC1. lra. }
  assert (Hhigh : c * new < (c' + 2) * old).
  { apply lt_IZR. rewrite !mult_IZR, plus_IZR.
    assert (H : ((Pv + 1) * IZR old <= (IZR c' + 2) * IZR old)%R)
      by (apply Rmult_le_compat_r; lra).
    clear - H Hk HCN HCN1 HCO HC1. lra. }
  assert (Hlt : c' < new).
  { enough (c' * old < new * old) by nia.
    apply lt_IZR. rewrite !mult_IZR.
    assert (H : (IZR c' * IZR old <= Pv * IZR old)%R)
      by (apply Rmult_le_compat_r; lra).
    assert (H' : (IZR c * IZR new + IZR new <= IZR new * IZR old)%R).
    { replace (IZR c * IZR new + IZR new)%R with (IZR new * (IZR c + 1))%R by ring.
      apply Rmult_le_compat_l; lra. }
    assert (H2 : (IZR c * IZR new <= 4294967295 * IZR new)%R)
      by (apply Rmult_le_compat_r; lra).
    clear - H H' H2 Hk HCN HN1. lra. }
  exists c'. split.
  { rewrite Hres.
    replace ((0 <=? c') && (c' <=? 2 ^ 32 - 1)) with true; [done|].
    symmetry. apply andb_true_intro. split; apply Z.leb_le; lia. }
  split; [lia|]. split; [lia|].
  intros Hsmall.
  assert (HON : (IZR c * IZR new <= 1125899906842624)%R).
  { change 1125899906842624%R with (IZR (2 ^ 50)). rewrite <- mult_IZR.
    apply IZR_le. nia. }
  split.
  - enough (c' * old < c * new + 1) by lia.
    apply lt_IZR. rewrite plus_IZR, !mult_IZR.
    assert (H : (IZR c' * IZR old <= Pv * IZR old)%R)
      by (apply Rmult_le_compat_r; lra).
    clear - H Hk HON HCN. lra.
  - enough (c * new - 1 < (c' + 1) * old) by lia.
    apply lt_IZR. rewrite minus_IZR, !mult_IZR, plus_IZR.
    assert (H : (Pv * IZR old <= (IZR c' + 1) * IZR old)%R)
      by (apply Rmult_le_compat_r; lra).
    clear - H Hk HON HCN. lra.
Qed.

Lemma uint_of_double_range (x : float) (v : Z) :
  uint_of_double x = Some v → 0 ≤ v ≤ UINT_MAX.
Proof.
  unfold uint_of_double. destruct (Prim2SF x) as [| | |sg m e]; try discriminate.
  - intros [= <-]. unfold UINT_MAX. lia.
  - cbv zeta. destruct (_ && _) eqn:E; [|discriminate]. intros [= <-].
    apply andb_prop in E as [?%Z.leb_le ?%Z.leb_le]. done.
Qed.

(** The truncation is that of the double expression, which can fall one below
    the exact quotient: 70 / 100 * 90 is 63, the code stores 62. *)
Example rescale_truncates : rescale 70 100 90 = Some 62 ∧ 70 * 90 / 100 = 63.
Proof. split; vm_compute; reflexivity. Qed.

(** C4: a left or right key event that changes the frame count from
    [oldAnimFrames] to [animFrames] replaces the frame index by
    [currAnimFrame / oldAnimFrames * animFrames] (the double expression of the
    source, truncated by the assignment).  For every frame index inside the
    old transition and all frame counts of at least 1 that an [unsigned int]
    holds, the new index is a frame of the new transition and keeps the
    relative position: [currAnimFrame' / animFrames] differs from
    [currAnimFrame / oldAnimFrames] by less than two frames of the new
    transition, and by at most one frame (the truncation) while
    [oldAnimFrames * animFrames <= 2^50].  For [oldAnimFrames = 54],
    [animFrames = 60] and [currAnimFrame = 27] the new index is 30, the same
    relative position ([27 / 54 = 30 / 60]). *)
Theorem duration_key_rescales (key : special_key) (st st' : state) :
  key = GLUT_KEY_LEFT ∨ key = GLUT_KEY_RIGHT →
  animSpecialKeys key st = Some st' →
  animFrames st' ≠ animFrames st →
  rescale (currAnimFrame st) (animFrames st) (animFrames st')
  = Some (currAnimFrame st')
  ∧ (1 ≤ animFrames st ≤ UINT_MAX → 1 ≤ animFrames st' →
     0 ≤ currAnimFrame st < animFrames st →
     0 ≤ currAnimFrame st' < animFrames st'
     ∧ (currAnimFrame st' - 1) * animFrames st
       < currAnimFrame st * animFrames st'
       < (currAnimFrame st' + 2) * animFrames st
     ∧ (animFrames st * animFrames st' ≤ 2 ^ 50 →
        currAnimFrame st' * animFrames st ≤ currAnimFrame st * animFrames st'
        ≤ (currAnimFrame st' + 1) * animFrames st))
  ∧ rescale 27 54 60 = Some 30
  ∧ 27 * 60 = 30 * 54.
Proof.
  intros Hkey Hrun Hchg.
  assert (Hres : rescale (currAnimFrame st) (animFrames st) (animFrames st')
                 = Some (currAnimFrame st')
                 ∧ animFrames st' ≤ UINT_MAX).
  { assert (Hset : ∀ d,
      (animFrames' ← uint_of_double (d * double_of_uint FRAMERATE)%float;
       currAnimFrame' ← rescale (currAnimFrame st) (animFrames st) animFrames';
       Some (mkState d (nonLinCtl st) animFrames' (nonLin st)
               (currGroupIdx st) currAnimFrame')) = Some st' →
      rescale (currAnimFrame st) (animFrames st) (animFrames st')
      = Some (currAnimFrame st')
      ∧ animFrames st' ≤ UINT_MAX).
    { intros d E.
      destruct (uint_of_double _) as [frames|] eqn:Ef; [|discriminate].
      cbn [mbind option_bind] in E.
      destruct (rescale _ _ frames) as [frame|] eqn:Er; [|discriminate].
      injection E as <-. split; [exact Er|].
      apply uint_of_double_range in Ef. cbn [animFrames]. lia. }
    destruct Hkey as [-> | ->]; cbn [animSpecialKeys] in Hrun.
    - exact (Hset _ Hrun).
    - destruct (_ <? _)%float.
      + exact (Hset _ Hrun).
      + injection Hrun as <-. congruence. }
  destruct Hres as [Hres Hmax].
  split; [exact Hres|]. split; [|split; [vm_compute; reflexivity|reflexivity]].
  intros Hold Hnew Hc.
  destruct (rescale_correct (currAnimFrame st) (animFrames st) (animFrames st'))
    as (c' & Hc' & Hin); [lia..|].
  rewrite Hres in Hc'. injection Hc' as <-. exact Hin.
Qed.

(** C8 (the code does not keep the floor): in binary64 the fifty decrements
    that lead from 2.7 towards 0.2 end at 0.2000000000000014, which still
    passes the test [animDuration > DURATION_CTL_LO]; the fifty-first right
    key event therefore takes [animDuration] to 0.15000000000000141, below
    [DURATION_CTL_LO], and [animFrames] to 9. *)
Theorem duration_floor_crossed :
  (main_state ≫= keyEvents (replicate 50 GLUT_KEY_RIGHT))
  = Some (mkState 0.2000000000000014%float 12 12 (nonLinCtlCurve 12) 0 0)
  ∧ (main_state ≫= keyEvents (replicate 51 GLUT_KEY_RIGHT))
    = Some (mkState 0.15000000000000141%float 12 9 (nonLinCtlCurve 12) 0 0)
  ∧ (0.15000000000000141 <? DURATION_CTL_LO)%float = true.
Proof.
  unfold main_state. generalize (nonLinCtlCurve 12). intros nl.
  split; [|split]; vm_compute; reflexivity.
Qed.

(** ** Easing *)

Section Easing.
Local Open Scope R_scope.

Lemma pow_pos_base (x y : R) : 0 < x → pow x y = Rpower x y.
Proof. intros Hx. unfold pow. destruct (Rlt_dec 0 x); [reflexivity|lra]. Qed.

Lemma pow_zero_base (y : R) : 0 < y → pow 0 y = 0.
Proof.
  intros Hy. unfold pow.
  destruct (Rlt_dec 0 0); [lra|]. destruct (Req_dec_T y 0); [lra|reflexivity].
Qed.

Lemma pow_one_base (y : R) : pow 1 y = 1.
Proof.
  rewrite pow_pos_base by lra. unfold Rpower.
  rewrite ln_1, Rmult_0_r. apply exp_0.
Qed.

Lemma pow_one_exponent (x : R) : 0 <= x → pow x 1 = x.
Proof.
  intros [Hx | <-].
  - rewrite pow_pos_base by exact Hx. apply Rpower_1, Hx.
  - apply pow_zero_base. lra.
Qed.

Lemma pow_nonneg (x y : R) : 0 <= pow x y.
Proof.
  unfold pow. destruct (Rlt_dec 0 x).
  - left. apply exp_pos.
  - destruct (Req_dec_T y 0); lra.
Qed.

(** [pow] is non-decreasing in a non-negative base when the exponent is
    positive. *)
Lemma pow_monotone (a b y : R) : 0 < y → 0 <= a <= b → pow a y <= pow b y.
Proof.
  intros Hy [[Ha | <-] Hab].
  - rewrite !pow_pos_base by lra. apply Rle_Rpower_l; lra.
  - rewrite pow_zero_base by exact Hy. apply pow_nonneg.
Qed.

Lemma pow_le_one (x y : R) : 0 < y → 0 <= x <= 1 → pow x y <= 1.
Proof.
  intros Hy Hx. rewrite <- (pow_one_base y). apply pow_monotone; lra.
Qed.

(** C2: for an exponent [nonLin >= 1], [animEase] is non-decreasing in [t] on
    [[0, 1]]. *)
Theorem animEase_monotone (nonLin t1 t2 : R) :
  1 <= nonLin → 0 <= t1 → t1 <= t2 → t2 <= 1 →
  animEase t1 nonLin <= animEase t2 nonLin.
Proof.
  intros Hn H0 H12 H1. unfold animEase.
  destruct (Rlt_dec t1 (1 / 2)) as [L1|L1], (Rlt_dec t2 (1 / 2)) as [L2|L2].
  - pose proof (pow_monotone (2 * t1) (2 * t2) nonLin). lra.
  - pose proof (pow_le_one (2 * t1) nonLin).
    pose proof (pow_le_one (2 * (1 - t2)) nonLin). lra.
  - lra.
  - pose proof (pow_monotone (2 * (1 - t2)) (2 * (1 - t1)) nonLin). lra.
Qed.

(** C3: for an exponent [nonLin >= 1], [animEase] maps 0 to 0, 1 to 1 and 0.5
    to 0.5; with the exponent 1 it is the identity on [[0, 1]]. *)
Theorem animEase_boundary (nonLin t : R) :
  1 <= nonLin → 0 <= t <= 1 →
  animEase 0 nonLin = 0
  ∧ animEase 1 nonLin = 1
  ∧ animEase (1 / 2) nonLin = 1 / 2
  ∧ animEase t 1 = t.
Proof.
  intros Hn Ht. unfold animEase. repeat split.
  - destruct (Rlt_dec 0 (1 / 2)); [|lra].
    rewrite Rmult_0_r, pow_zero_base; lra.
  - destruct (Rlt_dec 1 (1 / 2)); [lra|].
    replace (2 * (1 - 1)) with 0 by lra. rewrite pow_zero_base; lra.
  - destruct (Rlt_dec (1 / 2) (1 / 2)); [lra|].
    replace (2 * (1 - 1 / 2)) with 1 by lra. rewrite pow_one_base. lra.
  - destruct (Rlt_dec t (1 / 2)); rewrite pow_one_exponent; lra.
Qed.

(** C7: [nonLinCtlCurve (-1) = 1]; [nonLinCtlCurve c = 2^(c/2 - 2) + 1] for
    every integer [c] in [[0, 21]]; and [nonLinCtlCurve] is strictly
    increasing on the integers of [[-1, 21]]. *)
Theorem nonLinCtlCurve_increasing (c1 c2 : Z) :
  (-1 <= c1)%Z → (c1 < c2)%Z → (c2 <= 21)%Z →
  nonLinCtlCurve (-1) = 1
  ∧ (∀ c : Z, (0 <= c <= 21)%Z → nonLinCtlCurve c = Rpower 2 (IZR c / 2 - 2) + 1)
  ∧ nonLinCtlCurve c1 < nonLinCtlCurve c2.
Proof.
  intros Hlo Hlt Hhi.
  assert (Hcurve : ∀ c : Z, (0 <= c)%Z →
            nonLinCtlCurve c = Rpower 2 (IZR c / 2 - 2) + 1).
  { intros c Hc. unfold nonLinCtlCurve.
    destruct (Z.eq_dec c (-1)%Z); [lia|]. rewrite pow_pos_base; lra. }
  split; [reflexivity|]. split; [intros c Hc; apply Hcurve; lia|].
  rewrite (Hcurve c2) by lia.
  destruct (Z.eq_dec c1 (-1)%Z) as [->|Hne].
  - change (nonLinCtlCurve (-1)) with 1.
    pose proof (exp_pos ((IZR c2 / 2 - 2) * ln 2)). unfold Rpower. lra.
  - rewrite (Hcurve c1) by lia.
    apply Rplus_lt_compat_r, Rpower_lt; [lra|].
    apply IZR_lt in Hlt. lra.
Qed.

End Easing.

(** ** The circle table *)

Lemma cg_get_set_other (cg : list (list (list R))) (i j k : nat) (v : R)
    (i' j' k' : nat) :
  ¬ (i' = i ∧ j' = j ∧ k' = k) →
  cg_get (cg_set cg i j k v) i' j' k' = cg_get cg i' j' k'.
Proof.
  intros Hne. unfold cg_get, cg_set.
  destruct (decide (i = i')) as [<-|Hi];
    [|by rewrite list_lookup_alter_ne].
  rewrite list_lookup_alter_eq. destruct (cg !! i) as [g|]; [|done]. cbn.
  destruct (decide (j = j')) as [<-|Hj];
    [|by rewrite list_lookup_alter_ne].
  rewrite list_lookup_alter_eq. destruct (g !! j) as [c|]; [|done]. cbn.
  rewrite list_lookup_insert_ne; [done|]. intros <-. by apply Hne.
Qed.

Lemma cg_get_set_same (n : nat) (cg : list (list (list R))) (i j k : nat) (v : R) :
  cg_shape n cg → (i < n)%nat → (j < 4)%nat → (k < 3)%nat →
  cg_get (cg_set cg i j k v) i j k = v.
Proof.
  intros [Hlen Hall] Hi Hj Hk. unfold cg_get, cg_set.
  rewrite list_lookup_alter_eq.
  destruct (lookup_lt_is_Some_2 cg i) as [g Hg]; [lia|]. rewrite Hg. cbn.
  rewrite Forall_lookup in Hall. destruct (Hall _ _ Hg) as [Hg4 Hg3].
  rewrite list_lookup_alter_eq.
  destruct (lookup_lt_is_Some_2 g j) as [c Hc]; [lia|]. rewrite Hc. cbn.
  rewrite Forall_lookup in Hg3. specialize (Hg3 _ _ Hc).
  by rewrite list_lookup_insert_eq by lia.
Qed.

Lemma cg_shape_set (n : nat) (cg : list (list (list R))) (i j k : nat) (v : R) :
  cg_shape n cg → cg_shape n (cg_set cg i j k v).
Proof.
  intros [Hlen Hall]. unfold cg_set. split; [by rewrite length_alter|].
  rewrite Forall_lookup in Hall |- *. intros i' g'.
  rewrite list_lookup_alter. case_decide as Hi; [subst i'|by apply Hall].
  destruct (cg !! i) as [g|] eqn:Hg; [|done]. cbn. intros [= <-].
  destruct (Hall _ _ Hg) as [Hg4 Hg3]. split; [by rewrite length_alter|].
  rewrite Forall_lookup in Hg3 |- *. intros j' c'.
  rewrite list_lookup_alter. case_decide as Hj; [subst j'|by apply Hg3].
  destruct (g !! j) as [c|] eqn:Hc; [|done]. cbn. intros [= <-].
  rewrite length_insert. by apply (Hg3 _ _ Hc).
Qed.

Local Ltac cg_other := rewrite cg_get_set_other by (intros (? & ? & ?); lia).

Lemma center_axis_shape (n : nat) (cg : list (list (list R))) (i k : nat) :
  cg_shape n cg → cg_shape n (center_axis i k cg).
Proof.
  intros Hs. unfold center_axis, for_loop. cbn [seq fold_left].
  by repeat apply cg_shape_set.
Qed.

(** [center_axis i k] writes coordinate [k] of group [i] and nothing else. *)
Lemma center_axis_frame (cg : list (list (list R))) (i k i' j' k' : nat) :
  i' ≠ i ∨ k' ≠ k →
  cg_get (center_axis i k cg) i' j' k' = cg_get cg i' j' k'.
Proof.
  intros Hne. unfold center_axis, for_loop. cbn [seq fold_left].
  by repeat cg_other.
Qed.

(** Inside the table, [center_axis i k] subtracts from coordinate [k] of each
    circle of group [i] a quarter of the sum over the group. *)
Lemma center_axis_get (n : nat) (cg : list (list (list R))) (i j k : nat) :
  cg_shape n cg → (i < n)%nat → (j < 4)%nat → (k < 3)%nat →
  cg_get (center_axis i k cg) i j k
  = (cg_get cg i j k - (0 + axis_sum cg i k) / 4)%R.
Proof.
  intros Hs Hi Hj Hk. unfold axis_sum, center_axis, for_loop.
  cbn [seq fold_left].
  destruct j as [|[|[|[|j]]]]; [..|lia];
    repeat cg_other;
    rewrite (cg_get_set_same n) by (repeat apply cg_shape_set; done || lia);
    repeat cg_other; f_equal; f_equal; lra.
Qed.

Lemma center_axis_sum (n : nat) (cg : list (list (list R))) (i k : nat) :
  cg_shape n cg → (i < n)%nat → (k < 3)%nat →
  axis_sum (center_axis i k cg) i k = 0%R.
Proof.
  intros Hs Hi Hk. unfold axis_sum at 1.
  rewrite !(center_axis_get n) by (done || lia). unfold axis_sum. lra.
Qed.

Lemma center_group_shape (n : nat) (cg : list (list (list R))) (i : nat) :
  cg_shape n cg → cg_shape n (center_group i cg).
Proof.
  intros Hs. unfold center_group, for_loop. cbn [seq fold_left].
  by repeat apply center_axis_shape.
Qed.

(** [center_group i] leaves the other groups and every radius alone. *)
Lemma center_group_frame (cg : list (list (list R))) (i i' j' k' : nat) :
  i' ≠ i ∨ (2 ≤ k')%nat →
  cg_get (center_group i cg) i' j' k' = cg_get cg i' j' k'.
Proof.
  intros Hne. unfold center_group, for_loop. cbn [seq fold_left].
  rewrite !center_axis_frame by lia. done.
Qed.

Lemma center_group_sums (n : nat) (cg : list (list (list R))) (i : nat) :
  cg_shape n cg → (i < n)%nat →
  axis_sum (center_group i cg) i 0 = 0%R ∧ axis_sum (center_group i cg) i 1 = 0%R.
Proof.
  intros Hs Hi. unfold center_group, for_loop. cbn [seq fold_left]. split.
  - unfold axis_sum. rewrite !(center_axis_frame _ i 1%nat) by lia.
    apply (center_axis_sum n); [done|done|lia].
  - apply (center_axis_sum n); [by apply center_axis_shape|done|lia].
Qed.

(** The [i] loop over any list of group indices. *)
Lemma center_groups_shape (n : nat) (l : list nat) (cg : list (list (list R))) :
  cg_shape n cg → cg_shape n (fold_left (λ acc i, center_group i acc) l cg).
Proof.
  revert cg. induction l as [|i l IH]; intros cg Hs; [done|].
  cbn [fold_left]. by apply IH, center_group_shape.
Qed.

Lemma center_groups_radius (l : list nat) (cg : list (list (list R))) (i j : nat) :
  cg_get (fold_left (λ acc i, center_group i acc) l cg) i j 2 = cg_get cg i j 2.
Proof.
  revert cg. induction l as [|i0 l IH]; intros cg; [done|].
  cbn [fold_left]. rewrite IH. apply center_group_frame. lia.
Qed.

Lemma center_groups_sums (n : nat) (l : list nat) (cg : list (list (list R)))
    (i : nat) :
  cg_shape n cg → i ∈ l → (i < n)%nat →
  let cg' := fold_left (λ acc i, center_group i acc) l cg in
  axis_sum cg' i 0 = 0%R ∧ axis_sum cg' i 1 = 0%R.
Proof.
  intros Hs Hin Hi. cbn zeta. revert Hin.
  induction l as [|i0 l IH] using rev_ind; [by intros ?%elem_of_nil|].
  rewrite fold_left_app. cbn [fold_left].
  destruct (decide (i = i0)) as [<-|Hne].
  - intros _. apply (center_group_sums n); [by apply center_groups_shape|done].
  - intros [Hin|Hin%list_elem_of_singleton]%elem_of_app; [|done].
    unfold axis_sum in *. rewrite !center_group_frame by auto. by apply IH.
Qed.

(** ** The group order *)

Section Shuffle.
Variable NUM_GROUPS : nat.
Variable rng_state : Type.
Variable rnd_int32 : Z → Z → rng_state → Z * rng_state.

(** What the claims assume of the generator: called by the loop with the lower
    bound [i] and the upper bound [NUM_GROUPS], it answers inside
    [[i, NUM_GROUPS)]. *)
Hypothesis rnd_int32_range : ∀ (i : nat) (s : rng_state),
  (i < NUM_GROUPS - 1)%nat →
  Z.of_nat i ≤ (rnd_int32 (Z.of_nat i) (Z.of_nat NUM_GROUPS) s).1
             < Z.of_nat NUM_GROUPS.

Lemma order_init_length (m : nat) (go : list Z) :
  length (for_loop m (λ i go, <[i := Z.of_nat i]> go) go) = length go.
Proof.
  unfold for_loop. induction m as [|m IH]; [done|].
  by rewrite seq_S, fold_left_app; cbn; rewrite length_insert.
Qed.

(** The first loop fills [groupOrder] with [0, 1, ..., NUM_GROUPS - 1]. *)
Lemma order_init (go : list Z) :
  length go = NUM_GROUPS →
  for_loop NUM_GROUPS (λ i go, <[i := Z.of_nat i]> go) go
  = Z.of_nat <$> seq 0 NUM_GROUPS.
Proof.
  intros Hlen.
  assert (Hm : ∀ m j : nat, (m ≤ NUM_GROUPS)%nat →
    for_loop m (λ i go, <[i := Z.of_nat i]> go) go !! j
    = if decide (j < m)%nat then Some (Z.of_nat j) else go !! j).
  { induction m as [|m IH]; intros j Hle.
    - by case_decide; [lia|].
    - unfold for_loop in *. rewrite seq_S, fold_left_app. cbn.
      rewrite list_lookup_insert, IH by lia.
      pose proof (order_init_length m go) as Hl. unfold for_loop in Hl.
      rewrite Hl. repeat case_decide; try done; try lia.
      destruct_and!. by subst. }
  apply list_eq. intros j. rewrite Hm, list_lookup_fmap by done.
  case_decide.
  - by rewrite lookup_seq_lt.
  - rewrite lookup_seq_ge, lookup_ge_None_2 by lia. done.
Qed.

(** One pass of the shuffle loop swaps two entries. *)
Lemma shuffle_step_permutes (i : nat) (go : list Z) (s : rng_state) :
  length go = NUM_GROUPS → (i < NUM_GROUPS - 1)%nat →
  ∃ go' s', shuffle_step NUM_GROUPS rnd_int32 i (go, s) = Some (go', s')
            ∧ go' ≡ₚ go.
Proof.
  intros Hlen Hi. unfold shuffle_step.
  pose proof (rnd_int32_range i s Hi) as Hidx.
  destruct (rnd_int32 _ _ s) as [idx s']. cbn [fst] in Hidx.
  destruct (lookup_lt_is_Some_2 go (Z.to_nat idx)) as [tmp Htmp]; [lia|].
  destruct (lookup_lt_is_Some_2 go i) as [gi Hgi]; [lia|].
  unfold arr_get, arr_set. rewrite decide_True by lia.
  rewrite Htmp, Hgi. cbn. rewrite decide_True by lia. cbn.
  eexists _, _. split; [done|]. by apply Permutation_insert_swap.
Qed.

Lemma shuffle_loop_permutes (l : list nat) (go : list Z) (s : rng_state) :
  length go = NUM_GROUPS → Forall (λ i, i < NUM_GROUPS - 1)%nat l →
  ∃ go' s',
    fold_left (λ acc i, acc ≫= shuffle_step NUM_GROUPS rnd_int32 i) l (Some (go, s))
    = Some (go', s')
    ∧ go' ≡ₚ go.
Proof.
  intros Hlen Hl. revert go s Hlen.
  induction Hl as [|i l Hi Hl IH]; intros go s Hlen;
    cbn [fold_left mbind option_bind].
  - by eexists _, _.
  - destruct (shuffle_step_permutes i go s Hlen Hi) as (go1 & s1 & -> & Hp1).
    destruct (IH go1 s1) as (go' & s' & -> & Hp).
    + by rewrite Hp1.
    + eexists _, _. split; [done|]. by rewrite Hp.
Qed.

(** [circInit] runs to completion; the table it leaves is the centred one and
    the order it leaves is a rearrangement of [0, ..., NUM_GROUPS - 1]. *)
Lemma circInit_runs (cg : list (list (list R))) (go : list Z) (s : rng_state) :
  length go = NUM_GROUPS →
  ∃ go' s',
    circInit NUM_GROUPS rnd_int32 cg go s
    = Some (circInit_center NUM_GROUPS cg, go', s')
    ∧ go' ≡ₚ Z.of_nat <$> seq 0 NUM_GROUPS.
Proof.
  intros Hlen. unfold circInit, circInit_order, for_loop_opt.
  rewrite order_init by done.
  destruct (shuffle_loop_permutes (seq 0 (NUM_GROUPS - 1))
              (Z.of_nat <$> seq 0 NUM_GROUPS) s) as (go' & s' & -> & Hp).
  - by rewrite length_fmap, length_seq.
  - apply Forall_forall. intros i [_ Hi]%elem_of_seq. lia.
  - by eexists _, _.
Qed.

End Shuffle.

(** ** [circInit] *)

(** C5: when every call [rnd_int32(i, NUM_GROUPS)] of the shuffle loop answers
    inside [[i, NUM_GROUPS)], [circInit] runs to completion and leaves in
    [groupOrder] a permutation of the indices [0 .. NUM_GROUPS - 1]: it has
    [NUM_GROUPS] entries and every index occurs in it exactly once. *)
Theorem circInit_groupOrder_permutation (NUM_GROUPS : nat) (rng_state : Type)
    (rnd_int32 : Z → Z → rng_state → Z * rng_state)
    (cg : list (list (list R))) (go : list Z) (s : rng_state) :
  (0 < NUM_GROUPS)%nat →
  length go = NUM_GROUPS →
  (∀ (i : nat) (s : rng_state), (i < NUM_GROUPS - 1)%nat →
     Z.of_nat i ≤ (rnd_int32 (Z.of_nat i) (Z.of_nat NUM_GROUPS) s).1
                < Z.of_nat NUM_GROUPS) →
  ∃ cg' go' s',
    circInit NUM_GROUPS rnd_int32 cg go s = Some (cg', go', s')
    ∧ length go' = NUM_GROUPS
    ∧ (∀ k : nat, (k < NUM_GROUPS)%nat →
         count_occ Z.eq_dec go' (Z.of_nat k) = 1%nat)
    ∧ go' ≡ₚ Z.of_nat <$> seq 0 NUM_GROUPS.
Proof.
  intros _ Hlen Hrnd.
  destruct (circInit_runs NUM_GROUPS rng_state rnd_int32 Hrnd cg go s Hlen)
    as (go' & s' & Hrun & Hp).
  exists (circInit_center NUM_GROUPS cg), go', s'.
  split; [done|]. split; [|split; [|done]].
  - by rewrite Hp, length_fmap, length_seq.
  - intros k Hk.
    rewrite (proj1 (Permutation_count_occ Z.eq_dec _ _) Hp).
    apply NoDup_count_occ'.
    + apply NoDup_ListNoDup, NoDup_fmap_2; [apply Nat2Z.inj'|apply NoDup_seq].
    + apply list_elem_of_In, list_elem_of_fmap_2, elem_of_seq. lia.
Qed.

(** C6: after [circInit], in every group [i < NUM_GROUPS] the x-coordinates of
    the four circles sum to 0 and so do the y-coordinates (coordinates read as
    real numbers). *)
Theorem circInit_centered (NUM_GROUPS : nat) (rng_state : Type)
    (rnd_int32 : Z → Z → rng_state → Z * rng_state)
    (cg : list (list (list R))) (go : list Z) (s : rng_state) (i : nat) :
  (0 < NUM_GROUPS)%nat →
  cg_shape NUM_GROUPS cg →
  length go = NUM_GROUPS →
  (∀ (i : nat) (s : rng_state), (i < NUM_GROUPS - 1)%nat →
     Z.of_nat i ≤ (rnd_int32 (Z.of_nat i) (Z.of_nat NUM_GROUPS) s).1
                < Z.of_nat NUM_GROUPS) →
  (i < NUM_GROUPS)%nat →
  ∃ cg' go' s',
    circInit NUM_GROUPS rnd_int32 cg go s = Some (cg', go', s')
    ∧ cg_shape NUM_GROUPS cg'
    ∧ (cg_get cg' i 0 0 + cg_get cg' i 1 0 + cg_get cg' i 2 0
       + cg_get cg' i 3 0 = 0)%R
    ∧ (cg_get cg' i 0 1 + cg_get cg' i 1 1 + cg_get cg' i 2 1
       + cg_get cg' i 3 1 = 0)%R.
Proof.
  intros _ Hs Hlen Hrnd Hi.
  destruct (circInit_runs NUM_GROUPS rng_state rnd_int32 Hrnd cg go s Hlen)
    as (go' & s' & Hrun & _).
  exists (circInit_center NUM_GROUPS cg), go', s'.
  split; [done|]. split; [by apply center_groups_shape|].
  apply (center_groups_sums NUM_GROUPS (seq 0 NUM_GROUPS) cg i Hs); [|done].
  apply elem_of_seq. lia.
Qed.

(** C10: [circInit] writes x- and y-coordinates only: the radius (index 2) of
    every circle of every group is after [circInit] what it was before. *)
Theorem circInit_radius_unchanged (NUM_GROUPS : nat) (rng_state : Type)
    (rnd_int32 : Z → Z → rng_state → Z * rng_state)
    (cg : list (list (list R))) (go : list Z) (s : rng_state) :
  (0 < NUM_GROUPS)%nat →
  cg_shape NUM_GROUPS cg →
  length go = NUM_GROUPS →
  (∀ (i : nat) (s : rng_state), (i < NUM_GROUPS - 1)%nat →
     Z.of_nat i ≤ (rnd_int32 (Z.of_nat i) (Z.of_nat NUM_GROUPS) s).1
                < Z.of_nat NUM_GROUPS) →
  ∃ cg' go' s',
    circInit NUM_GROUPS rnd_int32 cg go s = Some (cg', go', s')
    ∧ cg_shape NUM_GROUPS cg'
    ∧ ∀ i j : nat, cg_get cg' i j 2 = cg_get cg i j 2.
Proof.
  intros _ Hs Hlen Hrnd.
  destruct (circInit_runs NUM_GROUPS rng_state rnd_int32 Hrnd cg go s Hlen)
    as (go' & s' & Hrun & _).
  exists (circInit_center NUM_GROUPS cg), go', s'.
  split; [done|]. split; [by apply center_groups_shape|].
  intros i j. apply center_groups_radius.
Qed.

(** * Further properties of the callbacks *)

(** ** The clock over many transitions *)

Lemma ticks_app (N : nat) (n m : nat) (st : state) :
  ticks N (n + m) st = ticks N n st ≫= ticks N m.
Proof.
  revert st. induction n as [|n IH]; intros st; [done|].
  cbn [Nat.add ticks]. destruct (animDisplay N st) as [st1|]; [|done].
  cbn [mbind option_bind]. apply IH.
Qed.

(** Redisplays that stay inside the transition only move the frame counter. *)
Lemma ticks_within (N : nat) (d : float) (c F : Z) (nl : R) (g : Z) :
  (0 < N)%nat → Z.of_nat N ≤ UINT_MAX → 0 ≤ g < Z.of_nat N → F ≤ UINT_MAX →
  ∀ (k : nat) (a : Z), 0 ≤ a → a + Z.of_nat k < F →
  ticks N k (mkState d c F nl g a) = Some (mkState d c F nl g (a + Z.of_nat k)).
Proof.
  intros HN HNmax Hg HF. induction k as [|k IH]; intros a Ha Hsum.
  - cbn [ticks]. do 2 f_equal. lia.
  - cbn [ticks]. rewrite animDisplay_step by lia. cbn [mbind option_bind].
    rewrite (Z.mod_small (a + 1) F) by lia.
    destruct (Z.eqb_spec (a + 1) 0) as [E|_]; [lia|].
    rewrite IH by lia. do 2 f_equal. lia.
Qed.

(** X1: from frame 0 of group index [g], [q] whole transitions and [r < F]
    further redisplays lead to group index [(g + q) mod NUM_GROUPS] and frame
    [r]: a transition takes exactly [animFrames] redisplays, the groups are
    visited cyclically, and after [NUM_GROUPS] transitions the globals are
    what they were. *)
Theorem clock_after (N : nat) (d : float) (c F : Z) (nl : R) (g : Z)
    (q : nat) (r : Z) :
  (0 < N)%nat → Z.of_nat N ≤ UINT_MAX →
  0 ≤ g < Z.of_nat N → 1 ≤ F ≤ UINT_MAX → 0 ≤ r < F →
  ticks N (q * Z.to_nat F + Z.to_nat r) (mkState d c F nl g 0)
  = Some (mkState d c F nl ((g + Z.of_nat q) mod Z.of_nat N) r)
  ∧ ticks N (N * Z.to_nat F) (mkState d c F nl g 0)
    = Some (mkState d c F nl g 0).
Proof.
  intros HN HNmax Hg HF Hr.
  assert (Hgen : ∀ (q : nat) (g r : Z), 0 ≤ g < Z.of_nat N → 0 ≤ r < F →
    ticks N (q * Z.to_nat F + Z.to_nat r) (mkState d c F nl g 0)
    = Some (mkState d c F nl ((g + Z.of_nat q) mod Z.of_nat N) r)).
  { clear g q r Hg Hr. induction q as [|q IH]; intros g r Hg Hr.
    - cbn [Nat.mul Nat.add]. rewrite (ticks_within N d c F nl g) by lia.
      rewrite Z.add_0_r, Z.mod_small by lia. do 2 f_equal. lia.
    - replace (S q * Z.to_nat F + Z.to_nat r)%nat
        with (Z.to_nat F + (q * Z.to_nat F + Z.to_nat r))%nat by lia.
      rewrite ticks_app, (ticks_to_wrap N d c F nl g) by lia.
      cbn [mbind option_bind]. rewrite IH; [|apply Z.mod_pos_bound; lia|done].
      rewrite Zplus_mod_idemp_l. do 3 f_equal. lia. }
  split; [by apply Hgen|].
  replace (N * Z.to_nat F)%nat with (N * Z.to_nat F + Z.to_nat 0)%nat by lia.
  rewrite Hgen by lia.
  replace (g + Z.of_nat N) with (g + 1 * Z.of_nat N) by lia.
  rewrite Z_mod_plus_full, Z.mod_small by lia. done.
Qed.

(** ** Key events *)

(** X3: no key event changes the current group; the up and down keys (and any
    other key but left and right) leave the duration, the frame count and the
    frame index alone; the left and right keys (and any other key but up and
    down) leave [nonLinCtl] and [nonLin] alone. *)
Theorem animSpecialKeys_frame (key : special_key) (st st' : state) :
  animSpecialKeys key st = Some st' →
  currGroupIdx st' = currGroupIdx st
  ∧ (key ≠ GLUT_KEY_LEFT → key ≠ GLUT_KEY_RIGHT →
     animDuration st' = animDuration st ∧ animFrames st' = animFrames st
     ∧ currAnimFrame st' = currAnimFrame st)
  ∧ (key ≠ GLUT_KEY_UP → key ≠ GLUT_KEY_DOWN →
     nonLinCtl st' = nonLinCtl st ∧ nonLin st' = nonLin st).
Proof.
  assert (Hset : ∀ d,
    (animFrames' ← uint_of_double (d * double_of_uint FRAMERATE)%float;
     currAnimFrame' ← rescale (currAnimFrame st) (animFrames st) animFrames';
     Some (mkState d (nonLinCtl st) animFrames' (nonLin st)
             (currGroupIdx st) currAnimFrame')) = Some st' →
    currGroupIdx st' = currGroupIdx st
    ∧ nonLinCtl st' = nonLinCtl st ∧ nonLin st' = nonLin st).
  { intros d E. destruct (uint_of_double _); [|discriminate].
    cbn [mbind option_bind] in E. destruct (rescale _ _ _); [|discriminate].
    by injection E as <-. }
  destruct key; cbn [animSpecialKeys]; intros Hrun.
  - destruct (_ <? _)%float; [|by injection Hrun as <-].
    destruct (Hset _ Hrun) as (? & ? & ?). done.
  - destruct (Hset _ Hrun) as (? & ? & ?). done.
  - destruct (_ <? _); by injection Hrun as <-.
  - destruct (_ <? _); by injection Hrun as <-.
  - by injection Hrun as <-.
Qed.

(** X4: when [nonLin] is the curve value of [nonLinCtl], an up key below the
    upper bound followed by a down key gives back the state, and so does a
    down key above the lower bound followed by an up key. *)
Theorem nonLinCtl_up_down (st : state) :
  nonLin st = nonLinCtlCurve (nonLinCtl st) →
  (nonLinCtl st < NON_LIN_CTL_HI → NON_LIN_CTL_LO ≤ nonLinCtl st →
   keyEvents [GLUT_KEY_UP; GLUT_KEY_DOWN] st = Some st)
  ∧ (NON_LIN_CTL_LO < nonLinCtl st → nonLinCtl st ≤ NON_LIN_CTL_HI →
     keyEvents [GLUT_KEY_DOWN; GLUT_KEY_UP] st = Some st).
Proof.
  destruct st as [d ctl F nl g a]. cbn [nonLin nonLinCtl]. intros ->.
  unfold NON_LIN_CTL_HI, NON_LIN_CTL_LO.
  split; intros H1 H2; cbn [keyEvents animSpecialKeys nonLinCtl animDuration
    animFrames nonLin currGroupIdx currAnimFrame];
    unfold NON_LIN_CTL_HI, NON_LIN_CTL_LO.
  - destruct (Z.ltb_spec ctl 21); [|lia]. cbn [mbind option_bind nonLinCtl
      animDuration animFrames nonLin currGroupIdx currAnimFrame].
    destruct (Z.ltb_spec (-1) (ctl + 1)); [|lia].
    by replace (ctl + 1 - 1) with ctl by lia.
  - destruct (Z.ltb_spec (-1) ctl); [|lia]. cbn [mbind option_bind nonLinCtl
      animDuration animFrames nonLin currGroupIdx currAnimFrame].
    destruct (Z.ltb_spec (ctl - 1) 21); [|lia].
    by replace (ctl - 1 + 1) with ctl by lia.
Qed.

(** ** What the main loop keeps true *)

Lemma animSpecialKeys_consistent (N : nat) (key : special_key) (st st' : state) :
  globals_consistent N st → animSpecialKeys key st = Some st' →
  globals_consistent N st'.
Proof.
  intros (Hnl & Hfr & HF & Ha & Hg).
  assert (Hset : ∀ d,
    (animFrames' ← uint_of_double (d * double_of_uint FRAMERATE)%float;
     currAnimFrame' ← rescale (currAnimFrame st) (animFrames st) animFrames';
     Some (mkState d (nonLinCtl st) animFrames' (nonLin st)
             (currGroupIdx st) currAnimFrame')) = Some st' →
    globals_consistent N st').
  { intros d E.
    destruct (uint_of_double (d * _)) as [frames|] eqn:Ef; [|discriminate].
    cbn [mbind option_bind] in E.
    destruct (rescale _ _ _) as [frame|] eqn:Er; [|discriminate].
    injection E as <-. unfold globals_consistent.
    cbn [nonLin nonLinCtl animDuration animFrames currAnimFrame currGroupIdx].
    apply uint_of_double_range in Er. pose proof (uint_of_double_range _ _ Ef).
    done. }
  destruct key; cbn [animSpecialKeys]; intros Hrun.
  - destruct (_ <? _)%float; [by apply Hset in Hrun|by injection Hrun as <-].
  - by apply Hset in Hrun.
  - destruct (_ <? _); by injection Hrun as <-.
  - destruct (_ <? _); by injection Hrun as <-.
  - by injection Hrun as <-.
Qed.

Lemma animDisplay_consistent (N : nat) (st st' : state) :
  globals_consistent N st → animDisplay N st = Some st' →
  globals_consistent N st'.
Proof.
  intros (Hnl & Hfr & HF & Ha & Hg). unfold animDisplay.
  destruct (Z.eqb_spec (Z.of_nat N) 0) as [E|HN]; [discriminate|].
  destruct (Z.eqb_spec (animFrames st) 0) as [E|HF0]; [discriminate|].
  intros [= <-]. unfold globals_consistent.
  cbn [nonLin nonLinCtl animDuration animFrames currAnimFrame currGroupIdx].
  repeat split; try done; try lia.
  - apply Z.mod_pos_bound. lia.
  - pose proof (Z.mod_pos_bound (uint (currAnimFrame st + 1)) (animFrames st)).
    lia.
  - destruct (_ =? 0); [apply Z.mod_pos_bound|]; lia.
  - destruct (_ =? 0); [apply Z.mod_pos_bound|]; lia.
Qed.

(** X5: whatever redisplays and key events the main loop delivers after
    [main] has set up the globals, as long as it runs: [nonLin] is
    [nonLinCtlCurve nonLinCtl], [animFrames] is [animDuration * FRAMERATE]
    truncated, both [unsigned int] trackers hold representable values and
    [currGroupIdx] is below [NUM_GROUPS]. *)
Theorem mainLoop_consistent (N : nat) (events : list event) (st' : state) :
  (0 < N)%nat →
  main_state ≫= mainLoop N events = Some st' →
  globals_consistent N st'.
Proof.
  intros HN.
  assert (Hloop : ∀ events st, globals_consistent N st →
            mainLoop N events st = Some st' → globals_consistent N st').
  { clear events. induction events as [|e events IH]; intros st Hst;
      cbn [mainLoop].
    - by intros [= <-].
    - destruct (dispatch N e st) as [st1|] eqn:E; [|discriminate].
      cbn [mbind option_bind]. apply IH.
      destruct e; cbn [dispatch] in E;
        eauto using animDisplay_consistent, animSpecialKeys_consistent. }
  assert (Hmain : main_state
                  = Some (mkState 2.7%float 12 162 (nonLinCtlCurve 12) 0 0)).
  { unfold main_state. generalize (nonLinCtlCurve 12). intros nl.
    vm_compute. reflexivity. }
  rewrite Hmain. cbn [mbind option_bind]. apply Hloop.
  unfold globals_consistent.
  cbn [nonLin nonLinCtl animDuration animFrames currAnimFrame currGroupIdx].
  split; [done|]. split; [vm_compute; reflexivity|]. unfold UINT_MAX. lia.
Qed.

(** ** The duration under the right key *)

Lemma keyEvents_app (keys1 keys2 : list special_key) (st : state) :
  keyEvents (keys1 ++ keys2) st = keyEvents keys1 st ≫= keyEvents keys2.
Proof.
  revert st. induction keys1 as [|key keys1 IH]; intros st; [done|].
  cbn [app keyEvents]. destruct (animSpecialKeys key st) as [st1|]; [|done].
  cbn [mbind option_bind]. apply IH.
Qed.

Lemma right_key_trace (nl : R) :
  forall_below 52 (λ n,
    match keyEvents (replicate (Z.to_nat n) GLUT_KEY_RIGHT)
            (mkState 2.7%float 12 162 nl 0 0) with
    | Some st => (0.15000000000000141 <=? animDuration st)%float
                 && (9 <=? animFrames st)
    | None => false
    end) = true.
Proof. vm_compute. reflexivity. Qed.

(** X6: however often the right key is pressed after start-up, the handler
    returns, [animDuration] stays at or above 0.15000000000000141 and
    [animFrames] at or above 9 (so the redisplay never divides by 0); from the
    fifty-first press on the state no longer changes. *)
Theorem right_key_floor (n : nat) :
  ∃ st, main_state ≫= keyEvents (replicate n GLUT_KEY_RIGHT) = Some st
    ∧ (0.15000000000000141 <=? animDuration st)%float = true
    ∧ 9 ≤ animFrames st
    ∧ ((51 ≤ n)%nat →
       st = mkState 0.15000000000000141%float 12 9 (nonLinCtlCurve 12) 0 0).
Proof.
  assert (Hmain : main_state
                  = Some (mkState 2.7%float 12 162 (nonLinCtlCurve 12) 0 0)).
  { unfold main_state. generalize (nonLinCtlCurve 12). intros nl.
    vm_compute. reflexivity. }
  rewrite Hmain. cbn [mbind option_bind].
  generalize (nonLinCtlCurve 12). intros nl.
  set (final := mkState 0.15000000000000141%float 12 9 nl 0 0).
  assert (H51 : keyEvents (replicate 51 GLUT_KEY_RIGHT)
                  (mkState 2.7%float 12 162 nl 0 0) = Some final).
  { vm_compute. reflexivity. }
  assert (Hfix : ∀ m, keyEvents (replicate m GLUT_KEY_RIGHT) final = Some final).
  { induction m as [|m IH]; [done|]. cbn [replicate keyEvents].
    replace (animSpecialKeys GLUT_KEY_RIGHT final) with (Some final)
      by (vm_compute; reflexivity).
    exact IH. }
  destruct (le_lt_dec 51 n) as [Hn|Hn].
  - exists final. replace n with (51 + (n - 51))%nat by lia.
    rewrite replicate_add, keyEvents_app, H51. cbn [mbind option_bind].
    split; [apply Hfix|]. split; [vm_compute; reflexivity|].
    split; [cbn; lia|done].
  - assert (H := forall_below_spec _ _ (Z.of_nat n) (right_key_trace nl)
                   ltac:(lia)).
    cbv beta in H. rewrite Nat2Z.id in H.
    destruct (keyEvents (replicate n _) _) as [st|]; [|discriminate].
    exists st. split; [done|].
    apply andb_prop in H as [H1 H2%Z.leb_le].
    split; [done|]. split; [done|lia].
Qed.

(** ** The easing curve and the interpolated circles *)

Section Interpolation.
Local Open Scope R_scope.

Lemma animEase_halves (t nonLin : R) :
  0 < nonLin → 0 <= t <= 1 →
  (t < 1 / 2 → 0 <= animEase t nonLin <= 1 / 2)
  ∧ (1 / 2 <= t → 1 / 2 <= animEase t nonLin <= 1).
Proof.
  intros Hn Ht. unfold animEase. destruct (Rlt_dec t (1 / 2)).
  - pose proof (pow_nonneg (2 * t) nonLin).
    pose proof (pow_le_one (2 * t) nonLin). lra.
  - pose proof (pow_nonneg (2 * (1 - t)) nonLin).
    pose proof (pow_le_one (2 * (1 - t)) nonLin). lra.
Qed.

(** X7: for a positive exponent the eased value of a time in [[0, 1]] is in
    [[0, 1]]: in [[0, 0.5]] on the first half of the transition and in
    [[0.5, 1]] on the second. *)
Theorem animEase_range (t nonLin : R) :
  0 < nonLin → 0 <= t <= 1 →
  0 <= animEase t nonLin <= 1
  ∧ (t < 1 / 2 → animEase t nonLin <= 1 / 2)
  ∧ (1 / 2 <= t → 1 / 2 <= animEase t nonLin).
Proof.
  intros Hn Ht. destruct (animEase_halves t nonLin Hn Ht) as [H1 H2].
  destruct (Rlt_dec t (1 / 2)); lra.
Qed.

(** X8: on [[0, 1]] and for a positive exponent the curve is point-symmetric
    about (0.5, 0.5): easing out mirrors easing in. *)
Theorem animEase_symmetric (t nonLin : R) :
  0 <= t <= 1 → 0 < nonLin →
  animEase (1 - t) nonLin = 1 - animEase t nonLin.
Proof.
  intros Ht Hn. unfold animEase.
  destruct (Rlt_dec (1 - t) (1 / 2)), (Rlt_dec t (1 / 2)); try lra.
  - replace (2 * (1 - (1 - t))) with (2 * t) by lra. lra.
  - replace t with (1 / 2) by lra.
    replace (2 * (1 - (1 - 1 / 2))) with 1 by lra.
    replace (2 * (1 - 1 / 2)) with 1 by lra.
    rewrite pow_one_base. lra.
Qed.

Lemma interpolateStep_range (st : state) :
  0 < nonLin st → (1 ≤ animFrames st)%Z →
  (0 ≤ currAnimFrame st ≤ animFrames st)%Z →
  0 <= interpolateStep st <= 1.
Proof.
  intros Hn HF [Ha Hle].
  enough (Ht : 0 <= IZR (currAnimFrame st) / IZR (animFrames st) <= 1).
  { unfold interpolateStep.
    destruct (animEase_halves _ (nonLin st) Hn Ht) as [H1 H2].
    destruct (Rlt_dec (IZR (currAnimFrame st) / IZR (animFrames st)) (1 / 2));
      lra. }
  apply IZR_le in Ha, Hle, HF.
  assert (0 < IZR (animFrames st)) by lra.
  split.
  - apply Rmult_le_pos; [done|]. left. by apply Rinv_0_lt_compat.
  - apply (Rmult_le_reg_r (IZR (animFrames st))); [done|].
    unfold Rdiv. rewrite Rmult_assoc, Rinv_l by lra. lra.
Qed.

Lemma interp_between (a b s : R) :
  0 <= s <= 1 → Rmin a b <= a * (1 - s) + b * s <= Rmax a b.
Proof.
  intros Hs. unfold Rmin, Rmax. destruct (Rle_dec a b); nra.
Qed.

(** *** The whole redisplay *)

Lemma interpolateStep_checked_Some (st : state) (w : R) :
  interpolateStep_checked st = Some w →
  (1 ≤ animFrames st)%Z ∧ (0 ≤ currAnimFrame st ≤ animFrames st)%Z
  ∧ 0 < nonLin st ∧ w = interpolateStep st.
Proof.
  unfold interpolateStep_checked.
  destruct (_ && _) eqn:E; [|discriminate].
  apply andb_prop in E as [[HF%Z.leb_le Ha%Z.leb_le]%andb_prop Hle%Z.leb_le].
  destruct (Rlt_dec 0 (nonLin st)); [|discriminate].
  intros [= <-]. done.
Qed.

Lemma interpolateStep_checked_runs (st : state) :
  0 < nonLin st → (0 ≤ currAnimFrame st < animFrames st)%Z →
  interpolateStep_checked st = Some (interpolateStep st).
Proof.
  intros Hn Ha. unfold interpolateStep_checked.
  replace (_ && _) with true.
  - destruct (Rlt_dec 0 (nonLin st)); [done|lra].
  - symmetry. rewrite !andb_true_iff, !Z.leb_le. lia.
Qed.

(** Inside a table of the declared shape every read succeeds, and is the
    entry that [cg_get] names. *)
Lemma cg_read_shape (n : nat) (cg : list (list (list R))) (i j k : nat) :
  cg_shape n cg → (i < n)%nat → (j < 4)%nat → (k < 3)%nat →
  cg_read cg i j k = Some (cg_get cg i j k).
Proof.
  intros [Hlen Hall] Hi Hj Hk. unfold cg_get, cg_read.
  destruct (cg !! i) as [g|] eqn:Eg;
    [|apply lookup_ge_None_1 in Eg; lia].
  cbn [mbind option_bind].
  rewrite Forall_lookup in Hall. destruct (Hall _ _ Eg) as [Hg Hcs].
  destruct (g !! j) as [c|] eqn:Ec;
    [|apply lookup_ge_None_1 in Ec; lia].
  cbn [mbind option_bind].
  rewrite Forall_lookup in Hcs. specialize (Hcs _ _ Ec). cbn beta in Hcs.
  destruct (c !! k) as [v|] eqn:Ev;
    [done|apply lookup_ge_None_1 in Ev; lia].
Qed.

Lemma cg_read_get (cg : list (list (list R))) (i j k : nat) (v : R) :
  cg_read cg i j k = Some v → cg_get cg i j k = v.
Proof. unfold cg_get, cg_read. by intros ->. Qed.

Lemma circle_read_shape (n : nat) (cg : list (list (list R))) (g : Z) (j : nat) :
  cg_shape n cg → (0 ≤ g < Z.of_nat n)%Z → (j < 4)%nat →
  circle_read cg g j
  = Some (cg_get cg (Z.to_nat g) j 0, cg_get cg (Z.to_nat g) j 1,
          cg_get cg (Z.to_nat g) j 2).
Proof.
  intros Hs Hg Hj. unfold circle_read.
  destruct (decide (0 ≤ g)%Z); [|lia].
  rewrite !(cg_read_shape n) by (done || lia). done.
Qed.

Lemma circle_read_get (cg : list (list (list R))) (g : Z) (j : nat)
    (x y r : R) :
  circle_read cg g j = Some (x, y, r) →
  (0 ≤ g)%Z
  ∧ cg_get cg (Z.to_nat g) j 0 = x ∧ cg_get cg (Z.to_nat g) j 1 = y
  ∧ cg_get cg (Z.to_nat g) j 2 = r.
Proof.
  unfold circle_read. destruct (decide (0 ≤ g)%Z); [|discriminate].
  destruct (cg_read cg (Z.to_nat g) j 0) as [x'|] eqn:Ex; [|discriminate].
  destruct (cg_read cg (Z.to_nat g) j 1) as [y'|] eqn:Ey; [|discriminate].
  destruct (cg_read cg (Z.to_nat g) j 2) as [r'|] eqn:Er; [|discriminate].
  cbn [mbind option_bind]. intros [= <- <- <-].
  by rewrite (cg_read_get _ _ _ _ _ Ex), (cg_read_get _ _ _ _ _ Ey),
    (cg_read_get _ _ _ _ _ Er).
Qed.

(** The loop over the four circles: it ends only if all eight rows are read
    inside the table, and then draws circle [j] at place [j]. *)
Lemma frame_circles_spec (cg : list (list (list R))) (currGroup nextGroup : Z)
    (w : R) (circles : list (R * R * R)) :
  for_loop_opt 4
    (λ j drawn,
       curr ← circle_read cg currGroup j;
       next ← circle_read cg nextGroup j;
       Some (drawn ++ [interpolate curr next w]))
    [] = Some circles →
  length circles = 4%nat
  ∧ ∀ j, (j < 4)%nat →
      ∃ curr next, circle_read cg currGroup j = Some curr
        ∧ circle_read cg nextGroup j = Some next
        ∧ circles !! j = Some (interpolate curr next w).
Proof.
  unfold for_loop_opt. cbn [seq fold_left mbind option_bind].
  destruct (circle_read cg currGroup 0) as [a0|] eqn:Ea0; [|discriminate].
  destruct (circle_read cg nextGroup 0) as [b0|] eqn:Eb0; [|discriminate].
  cbn [mbind option_bind].
  destruct (circle_read cg currGroup 1) as [a1|] eqn:Ea1; [|discriminate].
  destruct (circle_read cg nextGroup 1) as [b1|] eqn:Eb1; [|discriminate].
  cbn [mbind option_bind].
  destruct (circle_read cg currGroup 2) as [a2|] eqn:Ea2; [|discriminate].
  destruct (circle_read cg nextGroup 2) as [b2|] eqn:Eb2; [|discriminate].
  cbn [mbind option_bind].
  destruct (circle_read cg currGroup 3) as [a3|] eqn:Ea3; [|discriminate].
  destruct (circle_read cg nextGroup 3) as [b3|] eqn:Eb3; [|discriminate].
  cbn [mbind option_bind app]. intros [= <-]. split; [done|].
  intros j Hj. destruct j as [|[|[|[|j]]]]; [eauto..|lia].
Qed.

Lemma frame_circles_runs (n : nat) (cg : list (list (list R)))
    (currGroup nextGroup : Z) (w : R) :
  cg_shape n cg → (0 ≤ currGroup < Z.of_nat n)%Z →
  (0 ≤ nextGroup < Z.of_nat n)%Z →
  ∃ circles,
    for_loop_opt 4
      (λ j drawn,
         curr ← circle_read cg currGroup j;
         next ← circle_read cg nextGroup j;
         Some (drawn ++ [interpolate curr next w]))
      [] = Some circles.
Proof.
  intros Hs Hc Hn. unfold for_loop_opt. cbn [seq fold_left mbind option_bind].
  rewrite !(circle_read_shape n) by (done || lia).
  cbn [mbind option_bind]. eauto.
Qed.

(** What a defined redisplay went through. *)
Lemma animDisplay_frame_Some (N : nat) (cg : list (list (list R)))
    (go : list Z) (st st' : state) (circles : list (R * R * R))
    (curve : list (R * R)) :
  animDisplay_frame N cg go st = Some (circles, curve, st') →
  ∃ currGroup nextGroup,
    interpolateStep_checked st = Some (interpolateStep st)
    ∧ arr_get go (currGroupIdx st) = Some currGroup
    ∧ arr_get go (uint (currGroupIdx st + 1) mod Z.of_nat N) = Some nextGroup
    ∧ for_loop_opt 4
        (λ j drawn,
           curr ← circle_read cg currGroup j;
           next ← circle_read cg nextGroup j;
           Some (drawn ++ [interpolate curr next (interpolateStep st)]))
        [] = Some circles
    ∧ curve = drawInterpCurve st 0 0 80 40 100
    ∧ animDisplay N st = Some st'.
Proof.
  unfold animDisplay_frame.
  destruct (interpolateStep_checked st) as [w|] eqn:Ew; [|discriminate].
  cbn [mbind option_bind].
  destruct (interpolateStep_checked_Some _ _ Ew) as (_ & _ & _ & ->).
  destruct (Z.of_nat N =? 0)%Z; [discriminate|]. cbv zeta.
  destruct (arr_get go (currGroupIdx st)) as [currGroup|] eqn:Ecur;
    [|discriminate].
  cbn [mbind option_bind].
  destruct (arr_get go (uint (currGroupIdx st + 1) mod Z.of_nat N))
    as [nextGroup|] eqn:Enext; [|discriminate].
  cbn [mbind option_bind].
  destruct (for_loop_opt 4 _ []) as [drawn|] eqn:Eloop; [|discriminate].
  cbn [mbind option_bind].
  destruct (animDisplay N st) as [st1|] eqn:Est; [|discriminate].
  cbn [mbind option_bind]. intros [= <- <- <-].
  exists currGroup, nextGroup. done.
Qed.

(** With a table of the declared shape, an order of [NUM_GROUPS] indices of
    the table, a valid group index and a frame inside the transition, the
    redisplay is defined. *)
Lemma animDisplay_frame_runs (N : nat) (cg : list (list (list R)))
    (go : list Z) (st : state) :
  cg_shape N cg → length go = N →
  Forall (λ g, (0 ≤ g < Z.of_nat N)%Z) go →
  (0 ≤ currGroupIdx st < Z.of_nat N)%Z →
  (0 ≤ currAnimFrame st < animFrames st)%Z → 0 < nonLin st →
  ∃ circles st',
    animDisplay_frame N cg go st
    = Some (circles, drawInterpCurve st 0 0 80 40 100, st')
    ∧ animDisplay N st = Some st'.
Proof.
  intros Hs Hlen Hgo Hg Ha Hn. unfold animDisplay_frame.
  rewrite interpolateStep_checked_runs by done. cbn [mbind option_bind].
  destruct (Z.eqb_spec (Z.of_nat N) 0) as [E|_]; [lia|]. cbv zeta.
  assert (Hidx : ∀ i, (0 ≤ i < Z.of_nat N)%Z →
            ∃ g, arr_get go i = Some g ∧ (0 ≤ g < Z.of_nat N)%Z).
  { intros i Hi. unfold arr_get. destruct (decide (0 ≤ i)%Z); [|lia].
    destruct (go !! Z.to_nat i) as [g|] eqn:Eg;
      [|apply lookup_ge_None_1 in Eg; lia].
    exists g. split; [done|]. rewrite Forall_lookup in Hgo. exact (Hgo _ _ Eg). }
  destruct (Hidx _ Hg) as (currGroup & -> & Hcur).
  destruct (Hidx (uint (currGroupIdx st + 1) mod Z.of_nat N)%Z)
    as (nextGroup & -> & Hnext); [apply Z.mod_pos_bound; lia|].
  cbn [mbind option_bind].
  destruct (frame_circles_runs N cg currGroup nextGroup (interpolateStep st)
              Hs Hcur Hnext) as (circles & ->).
  cbn [mbind option_bind].
  assert (Hrun : ∃ st', animDisplay N st = Some st').
  { unfold animDisplay.
    destruct (Z.eqb_spec (Z.of_nat N) 0) as [E|_]; [lia|].
    destruct (Z.eqb_spec (animFrames st) 0) as [E|_]; [lia|]. eauto. }
  destruct Hrun as (st' & ->). cbn [mbind option_bind]. eauto.
Qed.

(** X2: with a table of the declared shape, an order of [NUM_GROUPS] indices
    of the table, a valid group index, a frame inside the transition and a
    positive exponent, a redisplay stays inside both arrays and is defined;
    it draws four circles, leaves the frame counter inside the transition and
    the group index valid, and does not touch the other globals. *)
Theorem animDisplay_frame_defined (N : nat) (cg : list (list (list R)))
    (go : list Z) (st : state) :
  cg_shape N cg → length go = N →
  Forall (λ g, (0 ≤ g < Z.of_nat N)%Z) go →
  (0 ≤ currGroupIdx st < Z.of_nat N)%Z →
  (0 ≤ currAnimFrame st < animFrames st)%Z → 0 < nonLin st →
  ∃ circles curve st',
    animDisplay_frame N cg go st = Some (circles, curve, st')
    ∧ length circles = 4%nat
    ∧ (0 ≤ currAnimFrame st' < animFrames st')%Z
    ∧ (0 ≤ currGroupIdx st' < Z.of_nat N)%Z
    ∧ animDuration st' = animDuration st ∧ nonLinCtl st' = nonLinCtl st
    ∧ animFrames st' = animFrames st ∧ nonLin st' = nonLin st.
Proof.
  intros Hs Hlen Hgo Hg Ha Hn.
  destruct (animDisplay_frame_runs N cg go st Hs Hlen Hgo Hg Ha Hn)
    as (circles & st' & Hrun & Hst).
  exists circles, (drawInterpCurve st 0 0 80 40 100), st'.
  split; [exact Hrun|].
  destruct (animDisplay_frame_Some _ _ _ _ _ _ _ Hrun)
    as (currGroup & nextGroup & _ & _ & _ & Hloop & _).
  split; [exact (proj1 (frame_circles_spec _ _ _ _ _ Hloop))|].
  unfold animDisplay in Hst.
  destruct (Z.eqb_spec (Z.of_nat N) 0) as [E|_]; [lia|].
  destruct (Z.eqb_spec (animFrames st) 0) as [E|_]; [lia|].
  injection Hst as <-.
  cbn [currAnimFrame animFrames currGroupIdx animDuration nonLinCtl nonLin].
  split; [apply Z.mod_pos_bound; lia|]. split; [|done].
  destruct (_ =? 0)%Z; [apply Z.mod_pos_bound; lia|done].
Qed.

(** X9: whenever a redisplay is defined, both rows it interpolates between
    are rows of the table, and for each of the four circles each centre
    coordinate and the radius handed to [drawCircle] lie between the value in
    the current group and the value in the next group. *)
Theorem animDisplay_frame_between (N : nat) (cg : list (list (list R)))
    (go : list Z) (st st' : state) (circles : list (R * R * R))
    (curve : list (R * R)) :
  animDisplay_frame N cg go st = Some (circles, curve, st') →
  ∃ currGroup nextGroup,
    arr_get go (currGroupIdx st) = Some currGroup
    ∧ arr_get go (uint (currGroupIdx st + 1) mod Z.of_nat N) = Some nextGroup
    ∧ ∀ j, (j < 4)%nat →
        ∃ x0 y0 r0 x1 y1 r1 x y r,
          circle_read cg currGroup j = Some (x0, y0, r0)
          ∧ circle_read cg nextGroup j = Some (x1, y1, r1)
          ∧ circles !! j = Some (x, y, r)
          ∧ Rmin x0 x1 <= x <= Rmax x0 x1
          ∧ Rmin y0 y1 <= y <= Rmax y0 y1
          ∧ Rmin r0 r1 <= r <= Rmax r0 r1.
Proof.
  intros Hrun.
  destruct (animDisplay_frame_Some _ _ _ _ _ _ _ Hrun)
    as (currGroup & nextGroup & Hw & Hcur & Hnext & Hloop & _).
  exists currGroup, nextGroup. split; [exact Hcur|]. split; [exact Hnext|].
  destruct (interpolateStep_checked_Some _ _ Hw) as (HF & Ha & Hn & _).
  pose proof (interpolateStep_range st Hn HF Ha) as Hs.
  destruct (frame_circles_spec _ _ _ _ _ Hloop) as [_ Hall].
  intros j Hj.
  destruct (Hall j Hj) as ([[x0 y0] r0] & [[x1 y1] r1] & Ea & Eb & Ec).
  exists x0, y0, r0, x1, y1, r1. eexists _, _, _.
  split; [exact Ea|]. split; [exact Eb|]. split; [exact Ec|].
  repeat split; by apply interp_between.
Qed.

(** X18: whenever a redisplay at frame 0 of a transition is defined, the four
    circles it draws are those of the current group, as the table holds
    them. *)
Theorem animDisplay_frame_start (N : nat) (cg : list (list (list R)))
    (go : list Z) (st st' : state) (circles : list (R * R * R))
    (curve : list (R * R)) :
  animDisplay_frame N cg go st = Some (circles, curve, st') →
  currAnimFrame st = 0%Z →
  ∃ currGroup,
    arr_get go (currGroupIdx st) = Some currGroup
    ∧ length circles = 4%nat
    ∧ ∀ j, (j < 4)%nat →
        ∃ curr, circle_read cg currGroup j = Some curr
          ∧ circles !! j = Some curr.
Proof.
  intros Hrun Hf.
  destruct (animDisplay_frame_Some _ _ _ _ _ _ _ Hrun)
    as (currGroup & nextGroup & Hw & Hcur & _ & Hloop & _).
  exists currGroup. split; [exact Hcur|].
  destruct (interpolateStep_checked_Some _ _ Hw) as (HF & _ & Hn & _).
  assert (Hstep : interpolateStep st = 0).
  { unfold interpolateStep, animEase. rewrite Hf.
    replace (0 / IZR (animFrames st)) with 0 by (unfold Rdiv; ring).
    destruct (Rlt_dec 0 (1 / 2)); [|lra].
    rewrite Rmult_0_r, pow_zero_base; lra. }
  rewrite Hstep in Hloop.
  destruct (frame_circles_spec _ _ _ _ _ Hloop) as [Hlen Hall].
  split; [exact Hlen|]. intros j Hj.
  destruct (Hall j Hj) as ([[x0 y0] r0] & [[x1 y1] r1] & Ea & _ & Ec).
  exists (x0, y0, r0). split; [exact Ea|]. rewrite Ec.
  cbn [interpolate]. do 3 f_equal; ring.
Qed.

(** Where the redisplay is defined, the circles are those that
    [animDisplay_circles] computes from the entries of the table. *)
Lemma animDisplay_frame_circles (N : nat) (cg : list (list (list R)))
    (go : list Z) (st st' : state) (circles : list (R * R * R))
    (curve : list (R * R)) :
  animDisplay_frame N cg go st = Some (circles, curve, st') →
  animDisplay_circles N cg go st = Some circles.
Proof.
  intros Hrun.
  destruct (animDisplay_frame_Some _ _ _ _ _ _ _ Hrun)
    as (currGroup & nextGroup & _ & Hcur & Hnext & Hloop & _).
  unfold animDisplay_circles. rewrite Hcur, Hnext. cbn [mbind option_bind].
  destruct (frame_circles_spec _ _ _ _ _ Hloop) as [Hlen Hall].
  f_equal. symmetry. apply list_eq_same_length with 4%nat; [done..|].
  intros j c c' Hj Hc Hc'.
  destruct (Hall j Hj) as ([[x0 y0] r0] & [[x1 y1] r1] & Ea & Eb & Ec).
  apply circle_read_get in Ea as (_ & <- & <- & <-).
  apply circle_read_get in Eb as (_ & <- & <- & <-).
  rewrite Ec in Hc. injection Hc as <-.
  rewrite list_lookup_fmap in Hc'.
  destruct (seq 0 4 !! j) as [j'|] eqn:Ej; [|discriminate].
  apply lookup_seq in Ej as [-> _]. cbn in Hc'. by injection Hc' as <-.
Qed.

End Interpolation.

(** ** More on [circInit] *)

Lemma center_group_get (n : nat) (cg : list (list (list R))) (i j k : nat) :
  cg_shape n cg → (i < n)%nat → (j < 4)%nat → (k < 2)%nat →
  cg_get (center_group i cg) i j k = (cg_get cg i j k - axis_sum cg i k / 4)%R.
Proof.
  intros Hs Hi Hj Hk. unfold center_group, for_loop. cbn [seq fold_left].
  destruct k as [|[|k]]; [| |lia].
  - rewrite center_axis_frame by lia.
    rewrite (center_axis_get n) by (done || lia). f_equal. f_equal. lra.
  - rewrite (center_axis_get n) by (by apply center_axis_shape || done || lia).
    unfold axis_sum. rewrite !center_axis_frame by lia. f_equal. f_equal. lra.
Qed.

Lemma center_groups_other (l : list nat) (cg : list (list (list R)))
    (i j k : nat) :
  i ∉ l →
  cg_get (fold_left (λ acc i, center_group i acc) l cg) i j k = cg_get cg i j k.
Proof.
  revert cg. induction l as [|i0 l IH]; intros cg Hnin; [done|].
  apply not_elem_of_cons in Hnin as [Hne Hnin]. cbn [fold_left].
  rewrite IH by done. apply center_group_frame. by left.
Qed.

Lemma center_groups_get (n : nat) (l : list nat) (cg : list (list (list R)))
    (i j k : nat) :
  cg_shape n cg → NoDup l → i ∈ l → (i < n)%nat → (j < 4)%nat → (k < 2)%nat →
  cg_get (fold_left (λ acc i, center_group i acc) l cg) i j k
  = (cg_get cg i j k - axis_sum cg i k / 4)%R.
Proof.
  intros Hs Hnd. revert cg Hs.
  induction Hnd as [|i0 l Hnin Hnd IH]; intros cg Hs Hin Hi Hj Hk.
  - by apply elem_of_nil in Hin.
  - cbn [fold_left]. apply elem_of_cons in Hin as [->|Hin].
    + rewrite center_groups_other by done. by apply (center_group_get n).
    + assert (i ≠ i0) by (by intros ->).
      rewrite IH by (by apply center_group_shape || done).
      unfold axis_sum. rewrite !center_group_frame by (by left). done.
Qed.

(** X10: the first loop nest of [circInit] replaces each x and each y by its
    difference from the mean of that coordinate over the four circles of the
    group as it was before; so the offsets between the circles of a group are
    what they were. *)
Theorem circInit_center_mean (N : nat) (cg : list (list (list R)))
    (i j j' k : nat) :
  cg_shape N cg → (i < N)%nat → (j < 4)%nat → (j' < 4)%nat → (k < 2)%nat →
  let cg' := circInit_center N cg in
  cg_get cg' i j k
  = (cg_get cg i j k
     - (cg_get cg i 0 k + cg_get cg i 1 k + cg_get cg i 2 k + cg_get cg i 3 k)
       / 4)%R
  ∧ (cg_get cg' i j k - cg_get cg' i j' k
     = cg_get cg i j k - cg_get cg i j' k)%R.
Proof.
  intros Hs Hi Hj Hj' Hk. cbv zeta.
  assert (Hget : ∀ j, (j < 4)%nat →
    cg_get (circInit_center N cg) i j k
    = (cg_get cg i j k - axis_sum cg i k / 4)%R).
  { intros j0 Hj0. apply (center_groups_get N); try done.
    - apply NoDup_seq.
    - apply elem_of_seq. lia. }
  split; [by apply Hget|]. rewrite !Hget by done. lra.
Qed.

(** X11: centring a centred table changes no entry. *)
Theorem circInit_center_idempotent (N : nat) (cg : list (list (list R)))
    (i j k : nat) :
  cg_shape N cg → (i < N)%nat → (j < 4)%nat → (k < 3)%nat →
  cg_get (circInit_center N (circInit_center N cg)) i j k
  = cg_get (circInit_center N cg) i j k.
Proof.
  intros Hs Hi Hj Hk.
  assert (Hs' : cg_shape N (circInit_center N cg))
    by (by apply center_groups_shape).
  destruct (decide (k = 2%nat)) as [->|Hk2]; [apply center_groups_radius|].
  unfold circInit_center at 1, for_loop.
  rewrite (center_groups_get N) by (done || apply NoDup_seq || lia
                                    || (apply elem_of_seq; lia)).
  destruct (center_groups_sums N (seq 0 N) cg i Hs) as [H0 H1];
    [apply elem_of_seq; lia|done|].
  fold (for_loop N center_group cg) in H0, H1.
  fold (circInit_center N cg) in H0, H1.
  destruct k as [|[|k]]; [rewrite H0|rewrite H1|lia]; lra.
Qed.

(** The first loop over [groupOrder] does not call the generator. *)
Lemma order_init_fill (n : nat) (go : list Z) :
  length go = n →
  for_loop n (λ i go, <[i := Z.of_nat i]> go) go = Z.of_nat <$> seq 0 n.
Proof.
  apply (order_init n unit (λ lo _ s, (lo, s))). intros i s Hi. cbn. lia.
Qed.

Section ShuffleValidIndex.
Variable NUM_GROUPS : nat.
Variable rng_state : Type.
Variable rnd_int32 : Z → Z → rng_state → Z * rng_state.

(** A weaker assumption on the generator: its answers are indices of the
    array, possibly below the lower bound it was given. *)
Hypothesis rnd_int32_valid : ∀ (i : nat) (s : rng_state),
  (i < NUM_GROUPS - 1)%nat →
  0 ≤ (rnd_int32 (Z.of_nat i) (Z.of_nat NUM_GROUPS) s).1 < Z.of_nat NUM_GROUPS.

Lemma shuffle_step_swaps (i : nat) (go : list Z) (s : rng_state) :
  length go = NUM_GROUPS → (i < NUM_GROUPS - 1)%nat →
  ∃ go' s', shuffle_step NUM_GROUPS rnd_int32 i (go, s) = Some (go', s')
            ∧ go' ≡ₚ go.
Proof.
  intros Hlen Hi. unfold shuffle_step.
  pose proof (rnd_int32_valid i s Hi) as Hidx.
  destruct (rnd_int32 _ _ s) as [idx s']. cbn [fst] in Hidx.
  destruct (lookup_lt_is_Some_2 go (Z.to_nat idx)) as [tmp Htmp]; [lia|].
  destruct (lookup_lt_is_Some_2 go i) as [gi Hgi]; [lia|].
  unfold arr_get, arr_set. rewrite decide_True by lia.
  rewrite Htmp, Hgi. cbn. rewrite decide_True by lia. cbn.
  eexists _, _. split; [done|]. by apply Permutation_insert_swap.
Qed.

Lemma circInit_runs_valid (cg : list (list (list R))) (go : list Z)
    (s : rng_state) :
  length go = NUM_GROUPS →
  ∃ go' s',
    circInit NUM_GROUPS rnd_int32 cg go s
    = Some (circInit_center NUM_GROUPS cg, go', s')
    ∧ go' ≡ₚ Z.of_nat <$> seq 0 NUM_GROUPS.
Proof.
  intros Hlen. unfold circInit, circInit_order, for_loop_opt.
  rewrite order_init_fill by done.
  assert (Hloop : ∀ (l : list nat) (go : list Z) (s : rng_state),
    length go = NUM_GROUPS → Forall (λ i, i < NUM_GROUPS - 1)%nat l →
    ∃ go' s',
      fold_left (λ acc i, acc ≫= shuffle_step NUM_GROUPS rnd_int32 i) l
        (Some (go, s)) = Some (go', s') ∧ go' ≡ₚ go).
  { intros l go0 s0 Hlen0 Hl. revert go0 s0 Hlen0.
    induction Hl as [|i l Hi Hl IH]; intros go0 s0 Hlen0;
      cbn [fold_left mbind option_bind].
    - by eexists _, _.
    - destruct (shuffle_step_swaps i go0 s0 Hlen0 Hi) as (go1 & s1 & -> & Hp1).
      destruct (IH go1 s1) as (go' & s' & -> & Hp); [by rewrite Hp1|].
      eexists _, _. split; [done|]. by rewrite Hp. }
  destruct (Hloop (seq 0 (NUM_GROUPS - 1)) (Z.of_nat <$> seq 0 NUM_GROUPS) s)
    as (go' & s' & -> & Hp).
  - by rewrite length_fmap, length_seq.
  - apply Forall_forall. intros i [_ Hi]%elem_of_seq. lia.
  - by eexists _, _.
Qed.

End ShuffleValidIndex.


(** X12: for the order to be a permutation it is enough that every answer of
    the generator is an index of the array, [0 <= idx < NUM_GROUPS], also when
    it is below the lower bound [i] it was given: [circInit] then completes,
    [groupOrder] is a rearrangement of [0 .. NUM_GROUPS - 1], and each of its
    entries is an index of [circleGroups]. *)
Theorem circInit_order_valid_index (NUM_GROUPS : nat) (rng_state : Type)
    (rnd_int32 : Z → Z → rng_state → Z * rng_state)
    (cg : list (list (list R))) (go : list Z) (s : rng_state) :
  (0 < NUM_GROUPS)%nat →
  length go = NUM_GROUPS →
  (∀ (i : nat) (s : rng_state), (i < NUM_GROUPS - 1)%nat →
     0 ≤ (rnd_int32 (Z.of_nat i) (Z.of_nat NUM_GROUPS) s).1
       < Z.of_nat NUM_GROUPS) →
  ∃ cg' go' s',
    circInit NUM_GROUPS rnd_int32 cg go s = Some (cg', go', s')
    ∧ go' ≡ₚ Z.of_nat <$> seq 0 NUM_GROUPS
    ∧ Forall (λ x, 0 ≤ x < Z.of_nat NUM_GROUPS) go'.
Proof.
  intros _ Hlen Hrnd.
  destruct (circInit_runs_valid NUM_GROUPS rng_state rnd_int32 Hrnd cg go s Hlen)
    as (go' & s' & Hrun & Hp).
  eexists _, go', s'. split; [done|]. split; [done|].
  rewrite Hp. apply Forall_forall.
  intros x (k & -> & [_ Hk]%elem_of_seq)%list_elem_of_fmap. lia.
Qed.

Lemma fold_bind_None {A B : Type} (f : B → A → option A) (l : list B) :
  fold_left (λ acc i, acc ≫= f i) l None = None.
Proof. by induction l. Qed.

(** X13: with at least two groups, if the first answer of the generator is
    not an index of the array, the swap reads [groupOrder] out of bounds and
    [circInit] has no defined result. *)
Theorem circInit_out_of_bounds (NUM_GROUPS : nat) (rng_state : Type)
    (rnd_int32 : Z → Z → rng_state → Z * rng_state)
    (cg : list (list (list R))) (go : list Z) (s : rng_state) :
  (2 ≤ NUM_GROUPS)%nat →
  length go = NUM_GROUPS →
  ¬ (0 ≤ (rnd_int32 0 (Z.of_nat NUM_GROUPS) s).1 < Z.of_nat NUM_GROUPS) →
  circInit NUM_GROUPS rnd_int32 cg go s = None.
Proof.
  intros HN Hlen Hidx. unfold circInit, circInit_order, for_loop_opt.
  rewrite order_init_fill by done.
  destruct NUM_GROUPS as [|[|n]]; [lia..|].
  replace (S (S n) - 1)%nat with (S n) by lia.
  cbn [seq fold_left mbind option_bind].
  replace (shuffle_step (S (S n)) rnd_int32 0
             (Z.of_nat <$> seq 0 (S (S n)), s)) with (@None (list Z * rng_state)).
  { by rewrite fold_bind_None. }
  unfold shuffle_step. change (Z.of_nat 0) with 0.
  destruct (rnd_int32 0 _ s) as [idx s']. cbn [fst] in Hidx.
  unfold arr_get. destruct (decide (0 ≤ idx)) as [Hpos|Hneg]; [|reflexivity].
  rewrite (lookup_ge_None_2 _ (Z.to_nat idx)); [reflexivity|].
  rewrite length_fmap, length_seq. lia.
Qed.


(** ** Drawing *)

Section Drawing.
Local Open Scope R_scope.

(** The state of the loop of [drawCircle] after [n] passes: the vertices
    emitted so far and the point that comes next, at angle [n * theta]. *)
Lemma drawCircle_loop (n : nat) (cx cy r theta : R) :
  for_loop n (λ _ acc, drawCircle_step (cos theta) (sin theta) cx cy acc)
    ([], (r, 0))
  = (map (λ i, (r * cos (INR i * theta) + cx, r * sin (INR i * theta) + cy))
       (seq 0 n),
     (r * cos (INR n * theta), r * sin (INR n * theta))).
Proof.
  unfold for_loop. induction n as [|n IH].
  - cbn [seq fold_left map INR]. rewrite Rmult_0_l, cos_0, sin_0.
    do 2 f_equal; lra.
  - rewrite seq_S, fold_left_app, IH, map_app. cbn [fold_left drawCircle_step].
    rewrite S_INR. cbn [Nat.add map].
    replace ((INR n + 1) * theta) with (INR n * theta + theta) by lra.
    rewrite cos_plus, sin_plus. do 3 f_equal; lra.
Qed.

(** X15: [drawCircle] emits [CIRCLE_PTS] vertices; vertex [i] is the point of
    the circle of centre [(cx, cy)] and radius [r] at angle
    [i * 2 * PI / CIRCLE_PTS]: every vertex is at distance [r] from the
    centre. *)
Theorem drawCircle_polygon (cx cy r : R) :
  drawCircle cx cy r
  = map (λ i, (r * cos (INR i * (2 * PI / INR CIRCLE_PTS)) + cx,
               r * sin (INR i * (2 * PI / INR CIRCLE_PTS)) + cy))
      (seq 0 CIRCLE_PTS)
  ∧ length (drawCircle cx cy r) = CIRCLE_PTS
  ∧ ∀ v, v ∈ drawCircle cx cy r →
      (v.1 - cx) * (v.1 - cx) + (v.2 - cy) * (v.2 - cy) = r * r.
Proof.
  assert (Heq : drawCircle cx cy r
    = map (λ i, (r * cos (INR i * (2 * PI / INR CIRCLE_PTS)) + cx,
                 r * sin (INR i * (2 * PI / INR CIRCLE_PTS)) + cy))
        (seq 0 CIRCLE_PTS)).
  { unfold drawCircle. cbv zeta. by rewrite drawCircle_loop. }
  split; [exact Heq|]. rewrite Heq. split.
  - by rewrite length_map, length_seq.
  - intros v (i & -> & _)%list_elem_of_fmap. cbn [fst snd].
    pose proof (sin2_cos2 (INR i * (2 * PI / INR CIRCLE_PTS))) as H.
    unfold Rsqr in H. nra.
Qed.

Lemma for_loop_emit {A : Type} (f : nat → A) (n : nat) :
  for_loop n (λ i vertices, vertices ++ [f i]) [] = map f (seq 0 n).
Proof.
  unfold for_loop. induction n as [|n IH]; [done|].
  by rewrite seq_S, fold_left_app, IH, map_app.
Qed.

(** X16: [drawInterpCurve] emits [samples] vertices (none, and no division by
    0, for [samples = 0]); with a positive exponent and a non-negative width
    and height the first one is the corner [(x, y)] and all of them lie in the
    rectangle [[x, x + width]] by [[y, y + height]]. *)
Theorem drawInterpCurve_box (st : state) (x y width height : R) (samples : nat) :
  0 < nonLin st → 0 <= width → 0 <= height →
  length (drawInterpCurve st x y width height samples) = samples
  ∧ ((0 < samples)%nat →
     head (drawInterpCurve st x y width height samples) = Some (x, y))
  ∧ ∀ v, v ∈ drawInterpCurve st x y width height samples →
      x <= v.1 <= x + width ∧ y <= v.2 <= y + height.
Proof.
  intros Hn Hw Hh. unfold drawInterpCurve.
  rewrite (for_loop_emit (λ i,
    (x + width * (INR i / INR samples),
     y + height * animEase (INR i / INR samples) (nonLin st)))).
  split; [by rewrite length_map, length_seq|]. split.
  - intros Hs. destruct samples as [|n]; [lia|]. cbn [seq map head INR].
    replace (0 / _) with 0 by (unfold Rdiv; ring).
    unfold animEase. destruct (Rlt_dec 0 (1 / 2)); [|lra].
    replace (2 * 0) with 0 by lra.
    rewrite pow_zero_base by done. do 2 f_equal; lra.
  - intros v (i & -> & [_ Hi]%elem_of_seq)%list_elem_of_fmap. cbn [fst snd].
    assert (Ht : 0 <= INR i / INR samples <= 1).
    { assert (0 < INR samples) by (apply lt_0_INR; lia).
      pose proof (pos_INR i). apply lt_INR in Hi. cbn [Nat.add] in Hi.
      split.
      - apply Rmult_le_pos; [done|]. left. by apply Rinv_0_lt_compat.
      - apply (Rmult_le_reg_r (INR samples)); [done|].
        unfold Rdiv. rewrite Rmult_assoc, Rinv_l by lra. lra. }
    destruct (animEase_halves _ (nonLin st) Hn Ht) as [H1 H2].
    assert (He : 0 <= animEase (INR i / INR samples) (nonLin st) <= 1)
      by (destruct (Rlt_dec (INR i / INR samples) (1 / 2)); lra).
    nra.
Qed.

(** X17: for a window of positive width, [animReshape] sets the viewport to
    the whole window (a height of 0 counted as 1) and a projection that is
    centred on the origin, contains the square of half-extent [SCALE] and has
    the aspect ratio of the window. *)
Theorem animReshape_projection (width height : Z) :
  (0 < width)%Z → (0 <= height)%Z →
  let h := (if height =? 0 then 1 else height)%Z in
  ∃ left right bottom top,
    animReshape width height = ((0, 0, width, h)%Z, (left, right, bottom, top))
    ∧ left = - right ∧ bottom = - top
    ∧ SCALE <= right ∧ SCALE <= top
    ∧ (right - left) * IZR h = (top - bottom) * IZR width.
Proof.
  intros Hw Hh. cbv zeta. unfold animReshape, SCALE.
  set (h := (if height =? 0 then 1 else height)%Z).
  assert (Hhpos : (0 < h)%Z) by (subst h; destruct (Z.eqb_spec height 0); lia).
  apply IZR_lt in Hw, Hhpos.
  assert (Hinv : 0 < / IZR h) by (by apply Rinv_0_lt_compat).
  assert (Hinvw : 0 < / IZR width) by (by apply Rinv_0_lt_compat).
  destruct (Z.leb_spec h width) as [Hle|Hlt]; eexists _, _, _, _;
    (split; [reflexivity|]).
  - apply IZR_le in Hle. repeat split; try lra.
    + apply (Rmult_le_reg_r (IZR h)); [lra|]. field_simplify; lra.
    + field.  lra.
  - apply IZR_lt in Hlt. repeat split; try lra.
    + apply (Rmult_le_reg_r (IZR width)); [lra|]. field_simplify; lra.
    + field. lra.
Qed.

End Drawing.

(** * The statements on sample data *)

Example uint_of_double_main : uint_of_double (2.7 * 60)%float = Some 162.
Proof. vm_compute. reflexivity. Qed.

Example circInit_order_sample :
  circInit_order 3 sample_rnd_int32 [0; 0; 0] 5 = Some ([2; 1; 0], 554244747).
Proof. vm_compute. reflexivity. Qed.

Example center_group_sample :
  center_group 0 sample_circleGroups
  = [ [ [-2; -2; 1]; [2; -2; 1]; [-2; 2; 1]; [2; 2; 1] ];
      [ [1; 1; 2]; [3; 1; 2]; [5; 1; 2]; [7; 1; 2] ];
      [ [0; 0; 3]; [0; 0; 2]; [0; 0; 1]; [8; 4; 1] ] ]%R.
Proof.
  unfold center_group, center_axis, for_loop, sample_circleGroups.
  cbn. repeat (f_equal; try lra).
Qed.

Lemma sample_circleGroups_shape : cg_shape 3 sample_circleGroups.
Proof. split; [reflexivity|]. repeat constructor. Qed.

Lemma sample_rnd_int32_range (i : nat) (seed : Z) :
  (i < 3 - 1)%nat →
  Z.of_nat i ≤ (sample_rnd_int32 (Z.of_nat i) (Z.of_nat 3) seed).1 < Z.of_nat 3.
Proof.
  intros Hi. cbn [sample_rnd_int32 fst].
  pose proof (Z.mod_pos_bound seed (Z.of_nat 3 - Z.of_nat i)). lia.
Qed.

Lemma animDisplay_transition_witness :
  ticks 3 4 (mkState 2.7%float 12 4 (nonLinCtlCurve 12) 2 0)
  = Some (mkState 2.7%float 12 4 (nonLinCtlCurve 12) 0 0).
Proof.
  refine (proj1 (animDisplay_transition 3 2.7%float 12 4 (nonLinCtlCurve 12) 2
                   _ _ _ _)); unfold UINT_MAX; lia.
Defined.

Lemma animEase_monotone_witness :
  (animEase (1 / 4) 2 <= animEase (3 / 4) 2)%R.
Proof. apply animEase_monotone; lra. Defined.

Lemma animEase_boundary_witness :
  (animEase 0 2 = 0 ∧ animEase 1 2 = 1 ∧ animEase (1 / 2) 2 = 1 / 2
   ∧ animEase (1 / 4) 1 = 1 / 4)%R.
Proof. apply animEase_boundary; lra. Defined.

Lemma duration_key_rescales_witness :
  animSpecialKeys GLUT_KEY_LEFT sample_state
  = Some (mkState 1%float 12 60 (nonLinCtlCurve 12) 0 30)
  ∧ rescale (currAnimFrame sample_state) (animFrames sample_state) 60 = Some 30
  ∧ 0 ≤ 30 < 60 ∧ 30 * 54 ≤ 27 * 60 ≤ (30 + 1) * 54.
Proof.
  assert (Hrun : animSpecialKeys GLUT_KEY_LEFT sample_state
                 = Some (mkState 1%float 12 60 (nonLinCtlCurve 12) 0 30)).
  { unfold sample_state. generalize (nonLinCtlCurve 12). intros nl.
    vm_compute. reflexivity. }
  split; [exact Hrun|].
  assert (Hchg : animFrames (mkState 1%float 12 60 (nonLinCtlCurve 12) 0 30)
                 ≠ animFrames sample_state) by (cbn; lia).
  destruct (duration_key_rescales GLUT_KEY_LEFT sample_state _
              (or_introl eq_refl) Hrun Hchg) as (Hres & Hpos & _).
  split; [exact Hres|].
  destruct Hpos as (Hin & _ & Hone); [unfold UINT_MAX; cbn; lia..|].
  split; [exact Hin|]. apply Hone. cbn. lia.
Defined.

Lemma circInit_groupOrder_permutation_witness :
  ∃ cg' go' s',
    circInit 3 sample_rnd_int32 sample_circleGroups [0; 0; 0] 5
    = Some (cg', go', s')
    ∧ length go' = 3%nat
    ∧ (∀ k : nat, (k < 3)%nat → count_occ Z.eq_dec go' (Z.of_nat k) = 1%nat)
    ∧ go' ≡ₚ Z.of_nat <$> seq 0 3.
Proof.
  apply circInit_groupOrder_permutation;
    [lia | reflexivity | apply sample_rnd_int32_range].
Defined.

Lemma circInit_centered_witness :
  ∃ cg' go' s',
    circInit 3 sample_rnd_int32 sample_circleGroups [0; 0; 0] 5
    = Some (cg', go', s')
    ∧ cg_shape 3 cg'
    ∧ (cg_get cg' 1 0 0 + cg_get cg' 1 1 0 + cg_get cg' 1 2 0
       + cg_get cg' 1 3 0 = 0)%R
    ∧ (cg_get cg' 1 0 1 + cg_get cg' 1 1 1 + cg_get cg' 1 2 1
       + cg_get cg' 1 3 1 = 0)%R.
Proof.
  apply circInit_centered;
    [lia | apply sample_circleGroups_shape | reflexivity
    | apply sample_rnd_int32_range | lia].
Defined.

Lemma nonLinCtlCurve_increasing_witness :
  (nonLinCtlCurve (-1) = 1
   ∧ (∀ c : Z, (0 <= c <= 21)%Z →
        nonLinCtlCurve c = Rpower 2 (IZR c / 2 - 2) + 1)
   ∧ nonLinCtlCurve (-1) < nonLinCtlCurve 21)%R.
Proof. apply nonLinCtlCurve_increasing; lia. Defined.

Lemma nonLinCtl_clamped_witness :
  animSpecialKeys GLUT_KEY_UP (mkState 2.7%float 21 162 (nonLinCtlCurve 21) 0 0)
  = Some (mkState 2.7%float 21 162 (nonLinCtlCurve 21) 0 0).
Proof.
  refine (proj1 (proj2 (nonLinCtl_clamped
                          (mkState 2.7%float 21 162 (nonLinCtlCurve 21) 0 0) _))
            eq_refl).
  unfold NON_LIN_CTL_LO, NON_LIN_CTL_HI. cbn. lia.
Defined.

Lemma circInit_radius_unchanged_witness :
  ∃ cg' go' s',
    circInit 3 sample_rnd_int32 sample_circleGroups [0; 0; 0] 5
    = Some (cg', go', s')
    ∧ cg_shape 3 cg'
    ∧ ∀ i j : nat, cg_get cg' i j 2 = cg_get sample_circleGroups i j 2.
Proof.
  apply circInit_radius_unchanged;
    [lia | apply sample_circleGroups_shape | reflexivity
    | apply sample_rnd_int32_range].
Defined.

(** ** The further properties on sample data *)

Lemma clock_after_witness :
  ticks 3 (2 * Z.to_nat 4 + Z.to_nat 1)
    (mkState 2.7%float 12 4 (nonLinCtlCurve 12) 2 0)
  = Some (mkState 2.7%float 12 4 (nonLinCtlCurve 12) ((2 + Z.of_nat 2) mod 3) 1).
Proof.
  refine (proj1 (clock_after 3 2.7%float 12 4 (nonLinCtlCurve 12) 2 2 1
                   _ _ _ _ _)); unfold UINT_MAX; lia.
Defined.

Lemma sample_groupOrder_valid :
  Forall (λ g, 0 ≤ g < Z.of_nat 3) sample_groupOrder.
Proof. unfold sample_groupOrder. repeat constructor; lia. Qed.

Lemma animDisplay_frame_defined_witness :
  ∃ circles curve st',
    animDisplay_frame 3 sample_circleGroups sample_groupOrder
      sample_display_state = Some (circles, curve, st')
    ∧ length circles = 4%nat
    ∧ 0 ≤ currAnimFrame st' < animFrames st'
    ∧ 0 ≤ currGroupIdx st' < Z.of_nat 3.
Proof.
  destruct (animDisplay_frame_defined 3 sample_circleGroups sample_groupOrder
              sample_display_state)
    as (circles & curve & st' & Hrun & Hlen & Hframe & Hgroup & _);
    [apply sample_circleGroups_shape | reflexivity
    | apply sample_groupOrder_valid | cbn; lia | cbn; lia | cbn; lra |].
  exists circles, curve, st'. done.
Defined.

Lemma animSpecialKeys_frame_witness :
  currGroupIdx
    (mkState 2.6500000000000004%float 12 159 (nonLinCtlCurve 12) 2 98) = 2.
Proof.
  refine (proj1 (animSpecialKeys_frame GLUT_KEY_RIGHT
                   (mkState 2.7%float 12 162 (nonLinCtlCurve 12) 2 100)
                   (mkState 2.6500000000000004%float 12 159 (nonLinCtlCurve 12)
                      2 98) _)).
  generalize (nonLinCtlCurve 12). intros nl. vm_compute. reflexivity.
Defined.

Lemma nonLinCtl_up_down_witness :
  keyEvents [GLUT_KEY_UP; GLUT_KEY_DOWN]
    (mkState 2.7%float 12 162 (nonLinCtlCurve 12) 0 0)
  = Some (mkState 2.7%float 12 162 (nonLinCtlCurve 12) 0 0).
Proof.
  refine (proj1 (nonLinCtl_up_down
                   (mkState 2.7%float 12 162 (nonLinCtlCurve 12) 0 0) eq_refl)
            _ _); unfold NON_LIN_CTL_HI, NON_LIN_CTL_LO; cbn; lia.
Defined.

Lemma mainLoop_consistent_witness :
  globals_consistent 3 (mkState 2.75%float 12 165 (nonLinCtlCurve 12) 0 2).
Proof.
  apply (mainLoop_consistent 3
           [Redisplay; SpecialKey GLUT_KEY_LEFT; Redisplay]); [lia|].
  unfold main_state. generalize (nonLinCtlCurve 12). intros nl.
  vm_compute. reflexivity.
Defined.

Lemma animEase_range_witness :
  (0 <= animEase (1 / 4) 2 <= 1
   ∧ (1 / 4 < 1 / 2 → animEase (1 / 4) 2 <= 1 / 2)
   ∧ (1 / 2 <= 1 / 4 → 1 / 2 <= animEase (1 / 4) 2))%R.
Proof. apply animEase_range; lra. Defined.

Lemma animEase_symmetric_witness :
  (animEase (1 - 1 / 4) 2 = 1 - animEase (1 / 4) 2)%R.
Proof. apply animEase_symmetric; lra. Defined.

Lemma animDisplay_frame_between_witness :
  ∃ circles curve st',
    animDisplay_frame 3 sample_circleGroups sample_groupOrder
      sample_display_state = Some (circles, curve, st')
    ∧ ∃ currGroup nextGroup,
        arr_get sample_groupOrder 1 = Some currGroup
        ∧ arr_get sample_groupOrder 2 = Some nextGroup
        ∧ ∀ j, (j < 4)%nat →
            ∃ x0 y0 r0 x1 y1 r1 x y r,
              circle_read sample_circleGroups currGroup j = Some (x0, y0, r0)
              ∧ circle_read sample_circleGroups nextGroup j = Some (x1, y1, r1)
              ∧ circles !! j = Some (x, y, r)
              ∧ (Rmin x0 x1 <= x <= Rmax x0 x1)%R
              ∧ (Rmin y0 y1 <= y <= Rmax y0 y1)%R
              ∧ (Rmin r0 r1 <= r <= Rmax r0 r1)%R.
Proof.
  destruct (animDisplay_frame_runs 3 sample_circleGroups sample_groupOrder
              sample_display_state)
    as (circles & st' & Hrun & _);
    [apply sample_circleGroups_shape | reflexivity
    | apply sample_groupOrder_valid | cbn; lia | cbn; lia | cbn; lra |].
  eexists _, _, _. split; [exact Hrun|].
  exact (animDisplay_frame_between _ _ _ _ _ _ _ Hrun).
Defined.

Lemma animDisplay_frame_start_witness :
  ∃ circles curve st',
    animDisplay_frame 3 sample_circleGroups sample_groupOrder
      (mkState 2.7%float 12 162 2%R 1 0) = Some (circles, curve, st')
    ∧ ∃ currGroup,
        arr_get sample_groupOrder 1 = Some currGroup
        ∧ length circles = 4%nat
        ∧ ∀ j, (j < 4)%nat →
            ∃ curr, circle_read sample_circleGroups currGroup j = Some curr
              ∧ circles !! j = Some curr.
Proof.
  destruct (animDisplay_frame_runs 3 sample_circleGroups sample_groupOrder
              (mkState 2.7%float 12 162 2%R 1 0))
    as (circles & st' & Hrun & _);
    [apply sample_circleGroups_shape | reflexivity
    | apply sample_groupOrder_valid | cbn; lia | cbn; lia | cbn; lra |].
  eexists _, _, _. split; [exact Hrun|].
  exact (animDisplay_frame_start _ _ _ _ _ _ _ Hrun eq_refl).
Defined.

Lemma circInit_center_mean_witness :
  (cg_get (circInit_center 3 sample_circleGroups) 1 2 0
   = cg_get sample_circleGroups 1 2 0
     - (cg_get sample_circleGroups 1 0 0 + cg_get sample_circleGroups 1 1 0
        + cg_get sample_circleGroups 1 2 0 + cg_get sample_circleGroups 1 3 0)
       / 4)%R.
Proof.
  refine (proj1 (circInit_center_mean 3 sample_circleGroups 1 2 0 0
                   sample_circleGroups_shape _ _ _ _)); lia.
Defined.

Lemma circInit_center_idempotent_witness :
  cg_get (circInit_center 3 (circInit_center 3 sample_circleGroups)) 2 3 1
  = cg_get (circInit_center 3 sample_circleGroups) 2 3 1.
Proof.
  apply circInit_center_idempotent; [apply sample_circleGroups_shape|lia..].
Defined.

Lemma circInit_order_valid_index_witness :
  ∃ cg' go' s',
    circInit 3 sample_rnd_zero sample_circleGroups [0; 0; 0] tt
    = Some (cg', go', s')
    ∧ go' ≡ₚ Z.of_nat <$> seq 0 3
    ∧ Forall (λ x, 0 ≤ x < Z.of_nat 3) go'.
Proof.
  apply circInit_order_valid_index;
    [lia | reflexivity | intros i s Hi; cbn; lia].
Defined.

Lemma circInit_out_of_bounds_witness :
  circInit 3 sample_rnd_past sample_circleGroups [0; 0; 0] tt = None.
Proof.
  apply circInit_out_of_bounds; [lia | reflexivity | cbn; lia].
Defined.


Lemma drawInterpCurve_box_witness :
  length (drawInterpCurve sample_display_state 0 0 80 40 100) = 100%nat.
Proof.
  refine (proj1 (drawInterpCurve_box sample_display_state 0 0 80 40 100
                   _ _ _)); cbn; lra.
Defined.

Lemma animReshape_projection_witness :
  ∃ left right bottom top,
    animReshape 1920 1080 = ((0, 0, 1920, 1080), (left, right, bottom, top))
    ∧ left = (- right)%R ∧ bottom = (- top)%R
    ∧ (SCALE <= right)%R ∧ (SCALE <= top)%R
    ∧ ((right - left) * 1080 = (top - bottom) * 1920)%R.
Proof. apply (animReshape_projection 1920 1080); lia. Defined.
